(** * pennylane-lightning: the gate catalogue and the gate-application kernels

    A shallow embedding of [pennylane_lightning/src/Gates.cpp] and of the
    index generator and driver declared in
    [pennylane_lightning/src/rework/Apply.hpp].

    Conventions of the embedding:
    - [CplxType] ([std::complex<double>]) is embedded as a pair of real
      numbers with exact arithmetic: agreement "up to floating-point
      round-off" becomes equality of exact complex numbers;
    - likewise [std::cos], [std::sin] and [std::pow(M_E, CplxType(0, x))]
      are the exact cosine, sine and complex exponential, and [M_PI] is the
      real number π; an equality of amplitudes proved in this arithmetic
      holds in the doubles of the code up to round-off only, and the
      statements that depend on it say "in exact arithmetic"; the module
      [Binary64] runs the Hadamard kernel in the arithmetic of the code to
      show the difference;
    - the state buffer ([CplxType*]), the index tuple ([vector<size_t>]) and
      the scratch vector ([vector<CplxType>]) are lists; every subscript of
      the source is a checked access, and an access outside the container
      (undefined behaviour in C++) is the fault [OutOfBounds];
    - positions and counters ([size_t], [unsigned int]) are natural
      numbers: a buffer that fits in memory has fewer than 2^64 positions,
      so no subscript computation of the kernels wraps around;
    - a kernel mutates the state buffer and the scratch vector: it is a
      computation in a state-and-fault monad over the pair of them;
    - a C++ exception is an [error] value. *)

From Stdlib Require Import PrimFloat.
From Stdlib Require Import Reals Lra RNsatz.
From stdpp Require Import base tactics option list gmap strings.

Local Open Scope nat_scope.

(** ** Complex numbers: [CplxType] *)

Module Cplx.

Definition CplxType : Type := (R * R)%type.

Definition mk (re im : R) : CplxType := (re, im).
Definition zero : CplxType := (0%R, 0%R).
Definition one : CplxType := (1%R, 0%R).
Definition add (a b : CplxType) : CplxType :=
  ((a.1 + b.1)%R, (a.2 + b.2)%R).
Definition opp (a : CplxType) : CplxType :=
  ((- a.1)%R, (- a.2)%R).
Definition sub (a b : CplxType) : CplxType :=
  ((a.1 - b.1)%R, (a.2 - b.2)%R).
Definition mul (a b : CplxType) : CplxType :=
  ((a.1 * b.1 - a.2 * b.2)%R, (a.1 * b.2 + a.2 * b.1)%R).

(** [std::pow(M_E, CplxType(0, t))]: the complex exponential of the purely
    imaginary number [i t]. *)
Definition expi (t : R) : CplxType := (cos t, sin t).

End Cplx.

Abbreviation CplxType := Cplx.CplxType.

Declare Scope cplx_scope.
Delimit Scope cplx_scope with C.
Bind Scope cplx_scope with Cplx.CplxType.
Notation "a + b" := (Cplx.add a b) : cplx_scope.
Notation "a - b" := (Cplx.sub a b) : cplx_scope.
Notation "a * b" := (Cplx.mul a b) : cplx_scope.
Notation "- a" := (Cplx.opp a) : cplx_scope.
Notation "0" := Cplx.zero : cplx_scope.
Notation "1" := Cplx.one : cplx_scope.

#[global] Instance CplxType_inhabited : Inhabited CplxType := populate Cplx.zero.

(** ** Constants *)

(** Modelled from the spec: [IMAG] is declared in a header that is not part
    of the sources at hand; the catalogue uses it as the imaginary unit
    ("scale-and-swap with ±i", "multiply index-1 slot by i"). *)
Definition IMAG : CplxType := Cplx.mk 0 1.

(** Modelled from the spec: [SQRT2INV] is declared in a header that is not
    part of the sources at hand; the catalogue uses it as 1/√2 ("2×2 mix
    with 1/√2"). *)
Definition SQRT2INV : CplxType := Cplx.mk (/ sqrt 2) 0.

(** [M_PI] of [<cmath>], which is the double nearest to π: here the real
    number π itself, as the arithmetic is exact. *)
Definition M_PI : R := PI.

(** ** Errors and faults *)

(** The exceptions of the engine.  [Gates.cpp] throws
    [std::invalid_argument] in two places: [validateLength] (message
    "<label>: requires <n> arguments but got <m> arguments instead"; the
    spec calls it BadParameterCount) and [constructGate] (message "<label>
    is not a supported gate type"; the spec calls it UnknownGate).  The
    remaining four are the driver's, named by the spec. *)
Inductive error : Type :=
  | BadParameterCount (errorPrefix : string) (requiredLength got : nat)
  | UnknownGate (label : string)
  | BadWireCount
  | WireOutOfRange
  | DuplicateWire
  | BadBufferLength.

Definition result (A : Type) : Type := error + A.

#[global] Instance result_ret : MRet result := λ A x, inr x.
#[global] Instance result_bind : MBind result :=
  λ A B f r, match r with inl e => inl e | inr x => f x end.

(** What a kernel can do wrong: trip its [assert], or subscript a container
    outside its bounds. *)
Inductive fault : Type := AssertionFailed | OutOfBounds.

(** ** The memory a kernel works on *)

(** The two containers a kernel mutates: the amplitude buffer [state] and
    the scratch vector [v]. *)
Record mem : Type := Mem { state : list CplxType; v : list CplxType }.

Inductive outcome (A : Type) : Type :=
  | Done (a : A) (m : mem)
  | Fault (f : fault).
Arguments Done {A} a m.
Arguments Fault {A} f.

Definition kernel (A : Type) : Type := mem → outcome A.

#[global] Instance kernel_ret : MRet kernel := λ A x m, Done x m.
#[global] Instance kernel_bind : MBind kernel :=
  λ A B f c m, match c m with Done a m' => f a m' | Fault e => Fault e end.

(** [assert(b)] *)
Definition assert (b : bool) : kernel unit :=
  λ m, if b then Done () m else Fault AssertionFailed.

(** [vec[i]] on a container that the kernel only reads ([indices],
    [matrix]). *)
Definition at_ {A} (vec : list A) (i : nat) : kernel A :=
  λ m, match vec !! i with Some x => Done x m | None => Fault OutOfBounds end.

(** reading [state[i]] *)
Definition load_state (i : nat) : kernel CplxType :=
  λ m, match state m !! i with Some x => Done x m | None => Fault OutOfBounds end.

(** [state[i] = x] *)
Definition store_state (i : nat) (x : CplxType) : kernel unit :=
  λ m, if decide (i < length (state m))
       then Done () (Mem (<[i:=x]> (state m)) (v m))
       else Fault OutOfBounds.

(** reading [v[i]] *)
Definition load_v (i : nat) : kernel CplxType :=
  λ m, match v m !! i with Some x => Done x m | None => Fault OutOfBounds end.

(** [v[i] = x] *)
Definition store_v (i : nat) (x : CplxType) : kernel unit :=
  λ m, if decide (i < length (v m))
       then Done () (Mem (state m) (<[i:=x]> (v m)))
       else Fault OutOfBounds.

(** [std::swap(state[i], state[j])] *)
Definition swap_state (i j : nat) : kernel unit :=
  tmp ← load_state i;
  b ← load_state j;
  store_state i b;;
  store_state j tmp.

(** [state[i] *= x] *)
Definition scale_state (i : nat) (x : CplxType) : kernel unit :=
  s ← load_state i;
  store_state i (s * x)%C.

(** [for (size_t i = 0; i < n; i++) body(i)] *)
Fixpoint for_from (body : nat → kernel unit) (i count : nat) : kernel unit :=
  match count with
  | O => mret ()
  | S count' => body i;; for_from body (S i) count'
  end.

(** ** The gate catalogue *)

(** A gate instance: one constructor per gate class of [Gates.cpp], holding
    the scalars that the class's constructor precomputes (its data
    members). *)
Inductive Gate : Type :=
  | XGate | YGate | ZGate | HadamardGate | SGate | TGate
  | RotationXGate (c js : CplxType)
  | RotationYGate (c s : CplxType)
  | RotationZGate (first second : CplxType)
  | PhaseShiftGate (shift : CplxType)
  | GeneralRotationGate (c s r1 r2 r3 r4 : CplxType)
  | CNOTGate | SWAPGate | CZGate
  | CRotationXGate (c js : CplxType)
  | CRotationYGate (c s : CplxType)
  | CRotationZGate (first second : CplxType)
  | CGeneralRotationGate (c s r1 r2 r3 r4 : CplxType)
  | ToffoliGate | CSWAPGate.

(** [AbstractGate::numQubits], as passed to the base-class constructor by
    [SingleQubitGate], [TwoQubitGate] and [ThreeQubitGate]. *)
Definition numQubits (g : Gate) : nat :=
  match g with
  | XGate | YGate | ZGate | HadamardGate | SGate | TGate
  | RotationXGate _ _ | RotationYGate _ _ | RotationZGate _ _
  | PhaseShiftGate _ | GeneralRotationGate _ _ _ _ _ _ => 1
  | CNOTGate | SWAPGate | CZGate
  | CRotationXGate _ _ | CRotationYGate _ _ | CRotationZGate _ _
  | CGeneralRotationGate _ _ _ _ _ _ => 2
  | ToffoliGate | CSWAPGate => 3
  end.

(** [AbstractGate::length]: [exp2(numQubits)]. *)
Definition length_ (g : Gate) : nat := 2 ^ numQubits g.

(** [TGate::shift] *)
Definition TGate_shift : CplxType := Cplx.expi (M_PI / 4).

(** The constructors of the parametrised gates. *)

Definition mkRotationXGate (rotationAngle : R) : Gate :=
  RotationXGate (Cplx.mk (cos (rotationAngle / 2)) 0)
                (Cplx.mk 0 (sin (- rotationAngle / 2))).

Definition mkRotationYGate (rotationAngle : R) : Gate :=
  RotationYGate (Cplx.mk (cos (rotationAngle / 2)) 0)
                (Cplx.mk (sin (rotationAngle / 2)) 0).

Definition mkRotationZGate (rotationAngle : R) : Gate :=
  RotationZGate (Cplx.expi (- rotationAngle / 2))
                (Cplx.expi (rotationAngle / 2)).

Definition mkPhaseShiftGate (rotationAngle : R) : Gate :=
  PhaseShiftGate (Cplx.expi rotationAngle).

Definition mkGeneralRotationGate (phi theta omega : R) : Gate :=
  let c := Cplx.mk (cos (theta / 2)) 0 in
  let s := Cplx.mk (sin (theta / 2)) 0 in
  GeneralRotationGate c s
    (c * Cplx.expi ((- phi - omega) / 2))%C
    (- s * Cplx.expi ((phi - omega) / 2))%C
    (s * Cplx.expi ((- phi + omega) / 2))%C
    (c * Cplx.expi ((phi + omega) / 2))%C.

Definition mkCRotationXGate (rotationAngle : R) : Gate :=
  CRotationXGate (Cplx.mk (cos (rotationAngle / 2)) 0)
                 (Cplx.mk 0 (sin (- rotationAngle / 2))).

Definition mkCRotationYGate (rotationAngle : R) : Gate :=
  CRotationYGate (Cplx.mk (cos (rotationAngle / 2)) 0)
                 (Cplx.mk (sin (rotationAngle / 2)) 0).

Definition mkCRotationZGate (rotationAngle : R) : Gate :=
  CRotationZGate (Cplx.expi (- rotationAngle / 2))
                 (Cplx.expi (rotationAngle / 2)).

Definition mkCGeneralRotationGate (phi theta omega : R) : Gate :=
  let c := Cplx.mk (cos (theta / 2)) 0 in
  let s := Cplx.mk (sin (theta / 2)) 0 in
  CGeneralRotationGate c s
    (c * Cplx.expi ((- phi - omega) / 2))%C
    (- s * Cplx.expi ((phi - omega) / 2))%C
    (s * Cplx.expi ((- phi + omega) / 2))%C
    (c * Cplx.expi ((phi + omega) / 2))%C.

(** [asMatrix()]: the gate's [matrix] member, row-major. *)
Definition asMatrix (g : Gate) : list CplxType :=
  (match g with
   | XGate => [ 0; 1;
                1; 0 ]
   | YGate => [ 0; - IMAG;
                IMAG; 0 ]
   | ZGate => [ 1; 0;
                0; - (1) ]
   | HadamardGate => [ SQRT2INV; SQRT2INV;
                       SQRT2INV; - SQRT2INV ]
   | SGate => [ 1; 0;
                0; IMAG ]
   | TGate => [ 1; 0;
                0; TGate_shift ]
   | RotationXGate c js => [ c; js;
                             js; c ]
   | RotationYGate c s => [ c; - s;
                            s; c ]
   | RotationZGate first second => [ first; 0;
                                     0; second ]
   | PhaseShiftGate shift => [ 1; 0;
                               0; shift ]
   | GeneralRotationGate _ _ r1 r2 r3 r4 => [ r1; r2;
                                              r3; r4 ]
   | CNOTGate => [ 1; 0; 0; 0;
                   0; 1; 0; 0;
                   0; 0; 0; 1;
                   0; 0; 1; 0 ]
   | SWAPGate => [ 1; 0; 0; 0;
                   0; 0; 1; 0;
                   0; 1; 0; 0;
                   0; 0; 0; 1 ]
   | CZGate => [ 1; 0; 0; 0;
                 0; 1; 0; 0;
                 0; 0; 1; 0;
                 0; 0; 0; - (1) ]
   | CRotationXGate c js => [ 1; 0; 0; 0;
                              0; 1; 0; 0;
                              0; 0; c; js;
                              0; 0; js; c ]
   | CRotationYGate c s => [ 1; 0; 0; 0;
                             0; 1; 0; 0;
                             0; 0; c; - s;
                             0; 0; s; c ]
   | CRotationZGate first second => [ 1; 0; 0; 0;
                                      0; 1; 0; 0;
                                      0; 0; first; 0;
                                      0; 0; 0; second ]
   | CGeneralRotationGate _ _ r1 r2 r3 r4 => [ 1; 0; 0; 0;
                                               0; 1; 0; 0;
                                               0; 0; r1; r2;
                                               0; 0; r3; r4 ]
   | ToffoliGate => [ 1; 0; 0; 0; 0; 0; 0; 0;
                      0; 1; 0; 0; 0; 0; 0; 0;
                      0; 0; 1; 0; 0; 0; 0; 0;
                      0; 0; 0; 1; 0; 0; 0; 0;
                      0; 0; 0; 0; 1; 0; 0; 0;
                      0; 0; 0; 0; 0; 1; 0; 0;
                      0; 0; 0; 0; 0; 0; 0; 1;
                      0; 0; 0; 0; 0; 0; 1; 0 ]
   | CSWAPGate => [ 1; 0; 0; 0; 0; 0; 0; 0;
                    0; 1; 0; 0; 0; 0; 0; 0;
                    0; 0; 1; 0; 0; 0; 0; 0;
                    0; 0; 0; 1; 0; 0; 0; 0;
                    0; 0; 0; 0; 1; 0; 0; 0;
                    0; 0; 0; 0; 0; 0; 1; 0;
                    0; 0; 0; 0; 0; 1; 0; 0;
                    0; 0; 0; 0; 0; 0; 0; 1 ]
   end)%C.

(** ** The kernels *)

(** The gather loop of [AbstractGate::applyKernel]:
    [for (const size_t& index : indices) { v[pos] = state[index]; pos++; }] *)
Fixpoint gather (indices : list nat) (pos : nat) : kernel unit :=
  match indices with
  | [] => mret ()
  | index :: rest =>
      x ← load_state index;
      store_v pos x;;
      gather rest (S pos)
  end.

(** The body of the scatter loop, for one [i]. *)
Definition scatter_row (matrix : list CplxType) (indices : list nat) (i : nat) : kernel unit :=
  index ← at_ indices i;
  store_state index 0%C;;
  let baseIndex := i * length indices in
  for_from (λ j,
    mj ← at_ matrix (baseIndex + j);
    vj ← load_v j;
    s ← load_state index;
    store_state index (s + mj * vj)%C) 0 (length indices).

(** [AbstractGate::applyKernel], the generic matrix path, for the gate whose
    [asMatrix()] is [matrix] and whose [length] is [len]. *)
Definition AbstractGate_applyKernel (matrix : list CplxType) (len : nat)
    (indices : list nat) : kernel unit :=
  sz ← (λ m, Done (length (v m)) m);
  assert (bool_decide (length indices = len ∧ sz = len));;
  gather indices 0;;
  for_from (scatter_row matrix indices) 0 (length indices).

Definition XGate_applyKernel (indices : list nat) : kernel unit :=
  i0 ← at_ indices 0; i1 ← at_ indices 1;
  swap_state i0 i1.

Definition YGate_applyKernel (indices : list nat) : kernel unit :=
  i0 ← at_ indices 0; s0 ← load_state i0; store_v 0 s0;;
  i1 ← at_ indices 1; s1 ← load_state i1;
  i0 ← at_ indices 0; store_state i0 (- IMAG * s1)%C;;
  v0 ← load_v 0;
  i1 ← at_ indices 1; store_state i1 (IMAG * v0)%C.

Definition ZGate_applyKernel (indices : list nat) : kernel unit :=
  i1 ← at_ indices 1; scale_state i1 (- (1))%C.

Definition HadamardGate_applyKernel (indices : list nat) : kernel unit :=
  i0 ← at_ indices 0; s0 ← load_state i0; store_v 0 s0;;
  i1 ← at_ indices 1; s1 ← load_state i1; store_v 1 s1;;
  v0 ← load_v 0; v1 ← load_v 1;
  i0 ← at_ indices 0; store_state i0 (SQRT2INV * (v0 + v1))%C;;
  v0 ← load_v 0; v1 ← load_v 1;
  i1 ← at_ indices 1; store_state i1 (SQRT2INV * (v0 - v1))%C.

Definition SGate_applyKernel (indices : list nat) : kernel unit :=
  i1 ← at_ indices 1; scale_state i1 IMAG.

Definition TGate_applyKernel (indices : list nat) : kernel unit :=
  i1 ← at_ indices 1; scale_state i1 TGate_shift.

Definition RotationZGate_applyKernel (first second : CplxType)
    (indices : list nat) : kernel unit :=
  i0 ← at_ indices 0; scale_state i0 first;;
  i1 ← at_ indices 1; scale_state i1 second.

Definition PhaseShiftGate_applyKernel (shift : CplxType)
    (indices : list nat) : kernel unit :=
  i1 ← at_ indices 1; scale_state i1 shift.

Definition CNOTGate_applyKernel (indices : list nat) : kernel unit :=
  i2 ← at_ indices 2; i3 ← at_ indices 3;
  swap_state i2 i3.

Definition SWAPGate_applyKernel (indices : list nat) : kernel unit :=
  i1 ← at_ indices 1; i2 ← at_ indices 2;
  swap_state i1 i2.

Definition CZGate_applyKernel (indices : list nat) : kernel unit :=
  i3 ← at_ indices 3; scale_state i3 (- (1))%C.

Definition CRotationXGate_applyKernel (c js : CplxType)
    (indices : list nat) : kernel unit :=
  i2 ← at_ indices 2; s2 ← load_state i2; store_v 0 s2;;
  i3 ← at_ indices 3; s3 ← load_state i3; store_v 1 s3;;
  v0 ← load_v 0; v1 ← load_v 1;
  i2 ← at_ indices 2; store_state i2 (c * v0 + js * v1)%C;;
  v0 ← load_v 0; v1 ← load_v 1;
  i3 ← at_ indices 3; store_state i3 (js * v0 + c * v1)%C.

Definition CRotationYGate_applyKernel (c s : CplxType)
    (indices : list nat) : kernel unit :=
  i2 ← at_ indices 2; s2 ← load_state i2; store_v 0 s2;;
  i3 ← at_ indices 3; s3 ← load_state i3; store_v 1 s3;;
  v0 ← load_v 0; v1 ← load_v 1;
  i2 ← at_ indices 2; store_state i2 (c * v0 - s * v1)%C;;
  v0 ← load_v 0; v1 ← load_v 1;
  i3 ← at_ indices 3; store_state i3 (s * v0 + c * v1)%C.

Definition CRotationZGate_applyKernel (first second : CplxType)
    (indices : list nat) : kernel unit :=
  i2 ← at_ indices 2; scale_state i2 first;;
  i3 ← at_ indices 3; scale_state i3 second.

Definition CGeneralRotationGate_applyKernel (r1 r2 r3 r4 : CplxType)
    (indices : list nat) : kernel unit :=
  i2 ← at_ indices 2; s2 ← load_state i2; store_v 0 s2;;
  i3 ← at_ indices 3; s3 ← load_state i3; store_v 1 s3;;
  v0 ← load_v 0; v1 ← load_v 1;
  i2 ← at_ indices 2; store_state i2 (r1 * v0 + r2 * v1)%C;;
  v0 ← load_v 0; v1 ← load_v 1;
  i3 ← at_ indices 3; store_state i3 (r3 * v0 + r4 * v1)%C.

Definition ToffoliGate_applyKernel (indices : list nat) : kernel unit :=
  i6 ← at_ indices 6; i7 ← at_ indices 7;
  swap_state i6 i7.

Definition CSWAPGate_applyKernel (indices : list nat) : kernel unit :=
  i5 ← at_ indices 5; i6 ← at_ indices 6;
  swap_state i5 i6.

(** The generic kernel of a gate instance: [AbstractGate::applyKernel] on
    its [asMatrix()] and [length]. *)
Definition generic_applyKernel (g : Gate) : list nat → kernel unit :=
  AbstractGate_applyKernel (asMatrix g) (length_ g).

(** The virtual call [gate->applyKernel(state, indices, v)].  [Gates.cpp]
    defines no kernel for [RotationXGate], [RotationYGate] and
    [GeneralRotationGate]: they inherit the generic one. *)
Definition applyKernel (g : Gate) : list nat → kernel unit :=
  match g with
  | XGate => XGate_applyKernel
  | YGate => YGate_applyKernel
  | ZGate => ZGate_applyKernel
  | HadamardGate => HadamardGate_applyKernel
  | SGate => SGate_applyKernel
  | TGate => TGate_applyKernel
  | RotationZGate first second => RotationZGate_applyKernel first second
  | PhaseShiftGate shift => PhaseShiftGate_applyKernel shift
  | CNOTGate => CNOTGate_applyKernel
  | SWAPGate => SWAPGate_applyKernel
  | CZGate => CZGate_applyKernel
  | CRotationXGate c js => CRotationXGate_applyKernel c js
  | CRotationYGate c s => CRotationYGate_applyKernel c s
  | CRotationZGate first second => CRotationZGate_applyKernel first second
  | CGeneralRotationGate _ _ r1 r2 r3 r4 => CGeneralRotationGate_applyKernel r1 r2 r3 r4
  | ToffoliGate => ToffoliGate_applyKernel
  | CSWAPGate => CSWAPGate_applyKernel
  | RotationXGate _ _ | RotationYGate _ _ | GeneralRotationGate _ _ _ _ _ _ =>
      generic_applyKernel g
  end.

(** ** Construction of gates *)

(** [validateLength]: throws when [vec.size() != requiredLength]. *)
Definition validateLength {T} (errorPrefix : string) (vec : list T)
    (requiredLength : nat) : result unit :=
  if decide (length vec ≠ requiredLength)
  then inl (BadParameterCount errorPrefix requiredLength (length vec))
  else inr ().

(** [parameters[i]], read after [validateLength] has established that [i] is
    in range. *)
Definition param (parameters : list R) (i : nat) : R :=
  default 0%R (parameters !! i).

(** The static [label] members. *)
Definition XGate_label : string := "PauliX".
Definition YGate_label : string := "PauliY".
Definition ZGate_label : string := "PauliZ".
Definition HadamardGate_label : string := "Hadamard".
Definition SGate_label : string := "S".
Definition TGate_label : string := "T".
Definition RotationXGate_label : string := "RX".
Definition RotationYGate_label : string := "RY".
Definition RotationZGate_label : string := "RZ".
Definition PhaseShiftGate_label : string := "PhaseShift".
Definition GeneralRotationGate_label : string := "Rot".
Definition CNOTGate_label : string := "CNOT".
Definition SWAPGate_label : string := "SWAP".
Definition CZGate_label : string := "CZ".
Definition CRotationXGate_label : string := "CRX".
Definition CRotationYGate_label : string := "CRY".
Definition CRotationZGate_label : string := "CRZ".
Definition CGeneralRotationGate_label : string := "CRot".
Definition ToffoliGate_label : string := "Toffoli".
Definition CSWAPGate_label : string := "CSWAP".

(** The static [create] functions. *)

Definition XGate_create (parameters : list R) : result Gate :=
  validateLength XGate_label parameters 0;; mret XGate.

Definition YGate_create (parameters : list R) : result Gate :=
  validateLength YGate_label parameters 0;; mret YGate.

Definition ZGate_create (parameters : list R) : result Gate :=
  validateLength ZGate_label parameters 0;; mret ZGate.

Definition HadamardGate_create (parameters : list R) : result Gate :=
  validateLength HadamardGate_label parameters 0;; mret HadamardGate.

Definition SGate_create (parameters : list R) : result Gate :=
  validateLength SGate_label parameters 0;; mret SGate.

Definition TGate_create (parameters : list R) : result Gate :=
  validateLength TGate_label parameters 0;; mret TGate.

Definition RotationXGate_create (parameters : list R) : result Gate :=
  validateLength RotationXGate_label parameters 1;;
  mret (mkRotationXGate (param parameters 0)).

Definition RotationYGate_create (parameters : list R) : result Gate :=
  validateLength RotationYGate_label parameters 1;;
  mret (mkRotationYGate (param parameters 0)).

Definition RotationZGate_create (parameters : list R) : result Gate :=
  validateLength RotationZGate_label parameters 1;;
  mret (mkRotationZGate (param parameters 0)).

Definition PhaseShiftGate_create (parameters : list R) : result Gate :=
  validateLength PhaseShiftGate_label parameters 1;;
  mret (mkPhaseShiftGate (param parameters 0)).

Definition GeneralRotationGate_create (parameters : list R) : result Gate :=
  validateLength GeneralRotationGate_label parameters 3;;
  mret (mkGeneralRotationGate (param parameters 0) (param parameters 1)
                              (param parameters 2)).

Definition CNOTGate_create (parameters : list R) : result Gate :=
  validateLength CNOTGate_label parameters 0;; mret CNOTGate.

Definition SWAPGate_create (parameters : list R) : result Gate :=
  validateLength SWAPGate_label parameters 0;; mret SWAPGate.

Definition CZGate_create (parameters : list R) : result Gate :=
  validateLength CZGate_label parameters 0;; mret CZGate.

Definition CRotationXGate_create (parameters : list R) : result Gate :=
  validateLength CRotationXGate_label parameters 1;;
  mret (mkCRotationXGate (param parameters 0)).

Definition CRotationYGate_create (parameters : list R) : result Gate :=
  validateLength CRotationYGate_label parameters 1;;
  mret (mkCRotationYGate (param parameters 0)).

Definition CRotationZGate_create (parameters : list R) : result Gate :=
  validateLength CRotationZGate_label parameters 1;;
  mret (mkCRotationZGate (param parameters 0)).

Definition CGeneralRotationGate_create (parameters : list R) : result Gate :=
  validateLength CGeneralRotationGate_label parameters 3;;
  mret (mkCGeneralRotationGate (param parameters 0) (param parameters 1)
                               (param parameters 2)).

Definition ToffoliGate_create (parameters : list R) : result Gate :=
  validateLength ToffoliGate_label parameters 0;; mret ToffoliGate.

Definition CSWAPGate_create (parameters : list R) : result Gate :=
  validateLength CSWAPGate_label parameters 0;; mret CSWAPGate.

(** ** The dispatch table *)

Abbreviation constructor := (list R → result Gate) (only parsing).

(** [std::map::emplace]: inserts unless the key is already present. *)
Definition emplace (key : string) (value : constructor)
    (table : gmap string constructor) : gmap string constructor :=
  match table !! key with
  | Some _ => table
  | None => <[key:=value]> table
  end.

(** [addToDispatchTable<GateType>], with [GateType::label] and
    [GateType::create] as arguments. *)
Definition addToDispatchTable (gateType : string * constructor)
    (dispatchTable : gmap string constructor) : gmap string constructor :=
  emplace gateType.1 gateType.2 dispatchTable.

(** The gate classes registered by [createDispatchTable], in its order. *)
Definition gateTypes : list (string * constructor) :=
  [ (XGate_label, XGate_create);
    (YGate_label, YGate_create);
    (ZGate_label, ZGate_create);
    (HadamardGate_label, HadamardGate_create);
    (SGate_label, SGate_create);
    (TGate_label, TGate_create);
    (RotationXGate_label, RotationXGate_create);
    (RotationYGate_label, RotationYGate_create);
    (RotationZGate_label, RotationZGate_create);
    (PhaseShiftGate_label, PhaseShiftGate_create);
    (GeneralRotationGate_label, GeneralRotationGate_create);
    (CNOTGate_label, CNOTGate_create);
    (SWAPGate_label, SWAPGate_create);
    (CZGate_label, CZGate_create);
    (CRotationXGate_label, CRotationXGate_create);
    (CRotationYGate_label, CRotationYGate_create);
    (CRotationZGate_label, CRotationZGate_create);
    (CGeneralRotationGate_label, CGeneralRotationGate_create);
    (ToffoliGate_label, ToffoliGate_create);
    (CSWAPGate_label, CSWAPGate_create) ].

Definition createDispatchTable : gmap string constructor :=
  foldl (λ dispatchTable gateType, addToDispatchTable gateType dispatchTable)
        ∅ gateTypes.

Definition dispatchTable : gmap string constructor := createDispatchTable.

(** [constructGate] *)
Definition constructGate (label : string) (parameters : list R) : result Gate :=
  match dispatchTable !! label with
  | None => inl (UnknownGate label)
  | Some create => create parameters
  end.

(** ** The catalogue of the specification (§4.2) *)

(** The twenty labels of the catalogue. *)
Definition catalogued_labels : list string :=
  [ "PauliX"; "PauliY"; "PauliZ"; "Hadamard"; "S"; "T"; "RX"; "RY"; "RZ";
    "PhaseShift"; "Rot"; "CNOT"; "SWAP"; "CZ"; "CRX"; "CRY"; "CRZ"; "CRot";
    "Toffoli"; "CSWAP" ].

(** The "Params" column of the catalogue: the declared parameter count of a
    label, if it is catalogued. *)
Definition declared_params (label : string) : option nat :=
  if bool_decide (label ∈ [ "PauliX"; "PauliY"; "PauliZ"; "Hadamard"; "S"; "T";
                            "CNOT"; "SWAP"; "CZ"; "Toffoli"; "CSWAP" ])
  then Some 0
  else if bool_decide (label ∈ [ "RX"; "RY"; "RZ"; "PhaseShift";
                                 "CRX"; "CRY"; "CRZ" ])
  then Some 1
  else if bool_decide (label ∈ [ "Rot"; "CRot" ])
  then Some 3
  else None.

(** The "Arity" column of the catalogue. *)
Definition declared_arity (label : string) : option nat :=
  if bool_decide (label ∈ [ "PauliX"; "PauliY"; "PauliZ"; "Hadamard"; "S"; "T";
                            "RX"; "RY"; "RZ"; "PhaseShift"; "Rot" ])
  then Some 1
  else if bool_decide (label ∈ [ "CNOT"; "SWAP"; "CZ";
                                 "CRX"; "CRY"; "CRZ"; "CRot" ])
  then Some 2
  else if bool_decide (label ∈ [ "Toffoli"; "CSWAP" ])
  then Some 3
  else None.

(** ** The index generator *)

(** Modelled from the spec: [getIndicesExcluding] is only declared in
    [rework/Apply.hpp]; its definition is not part of the sources at hand.
    "Returns the ascending sequence of integers in [0, N) not present in
    excluded.  Fails if any element of excluded is ≥ N.  Duplicates in
    excluded are tolerated."  [None] is the failure. *)
Definition getIndicesExcluding (excludedIndices : list nat) (qubits : nat)
    : option (list nat) :=
  if bool_decide (Forall (λ i, i < qubits) excludedIndices)
  then Some (filter (λ i, i ∉ excludedIndices) (seq 0 qubits))
  else None.

(** Modelled from the spec: [generateBitPatterns] is only declared in
    [rework/Apply.hpp]; its definition is not part of the sources at hand.
    The declaration documents it as producing "the decimal values for all
    possible bit patterns for a given set of indices, taking other indices
    to be fixed at 0", qubit 0 being the most significant bit, "the qubit
    indices evaluated from last-to-first"; the spec: "wires are consumed
    last-to-first as bits go least-to-most significant".  Starting from the
    single pattern 0, each wire, taken from the last to the first, doubles
    the sequence: the patterns so far with the wire's bit clear, then the
    same patterns with the bit set. *)
Definition generateBitPatterns (qubitIndices : list nat) (qubits : nat)
    : list nat :=
  foldl (λ patterns q, patterns ++ ((λ p, p + 2 ^ (qubits - 1 - q)) <$> patterns))
        [0] (reverse qubitIndices).

(** The closed form of the spec (§4.1): "for output index p with binary
    representation b_{k-1} … b_0, the value is Σ over j of
    b_j · 2^{N-1-wires[k-1-j]}". *)
Definition binary_digit (p j : nat) : nat := (p / 2 ^ j) mod 2.

Definition pattern_value (wires : list nat) (N p : nat) : nat :=
  let k := length wires in
  sum_list ((λ j, binary_digit p j * 2 ^ (N - 1 - wires !!! (k - 1 - j)))
              <$> seq 0 k).

(** The index tuples of the driver's inner loop (§4.4, step 4): for each
    complement offset [c], the tuple [c + K[0], …, c + K[2^k - 1]]. *)
Definition index_tuple (c : nat) (K : list nat) : list nat := (λ k, c + k) <$> K.

(** ** The driver *)

(** One operation of an apply call: a (label, wires, params) triple. *)
Record operation : Type := Operation {
  opLabel : string;
  opWires : list nat;
  opParams : list R
}.

(** How an operation, or an apply call, ends: it completes and leaves a
    state buffer; it aborts on a validation failure (an exception) and
    leaves a state buffer; or a kernel faults, which is undefined behaviour
    and leaves nothing to speak of. *)
Inductive apply_result : Type :=
  | Finished (stateVector : list CplxType)
  | Aborted (stateVector : list CplxType) (e : error)
  | Undefined (f : fault).

(** The inner loop of the driver: the gate's kernel on the index tuple of
    every complement offset, on the same state buffer and scratch vector. *)
Fixpoint applyToOffsets (gate : Gate) (K : list nat) (C : list nat) : kernel unit :=
  match C with
  | [] => mret ()
  | c :: C' => applyKernel gate (index_tuple c K);; applyToOffsets gate K C'
  end.

(** Modelled from the spec: [constructAndApplyOperation] is only declared in
    [rework/Apply.hpp]; its definition is not part of the sources at hand.
    §4.4: for one operation, validate ([len(wires) = gate.arity], entries
    distinct and [< N], [len(params) = gate.paramCount]), construct the gate
    instance, compute [K], the complement wires and [C], and invoke the
    kernel for each [c] in [C].  The scratch vector has the gate's [length]
    (§5). *)
Definition constructAndApplyOperation (stateVector : list CplxType)
    (op : operation) (qubits : nat) : apply_result :=
  match constructGate (opLabel op) (opParams op) with
  | inl e => Aborted stateVector e
  | inr gate =>
      if bool_decide (length (opWires op) ≠ numQubits gate)
      then Aborted stateVector BadWireCount
      else if bool_decide (¬ Forall (λ w, w < qubits) (opWires op))
      then Aborted stateVector WireOutOfRange
      else if bool_decide (¬ NoDup (opWires op))
      then Aborted stateVector DuplicateWire
      else
        let K := generateBitPatterns (opWires op) qubits in
        match getIndicesExcluding (opWires op) qubits with
        | None => Aborted stateVector WireOutOfRange
        | Some complementWires =>
            let C := generateBitPatterns complementWires qubits in
            let scratch := replicate (length_ gate) 0%C in
            match applyToOffsets gate K C (Mem stateVector scratch) with
            | Done _ m => Finished (state m)
            | Fault f => Undefined f
            end
        end
  end.

(** The loop of [apply] over the operations, in order. *)
Fixpoint applyOperations (stateVector : list CplxType) (ops : list operation)
    (qubits : nat) : apply_result :=
  match ops with
  | [] => Finished stateVector
  | op :: rest =>
      match constructAndApplyOperation stateVector op qubits with
      | Finished stateVector' => applyOperations stateVector' rest qubits
      | stopped => stopped
      end
  end.

(** Modelled from the spec: [apply] is only declared in [rework/Apply.hpp];
    its definition is not part of the sources at hand.  §4.4: the input is a
    state buffer of length 2^N, N, and an ordered list of operations, each
    a (label, wires, params) triple, applied strictly left to right; §7: a
    buffer whose length is not exactly 2^N is the failure BadBufferLength. *)
Definition apply (stateVector : list CplxType) (ops : list operation)
    (qubits : nat) : apply_result :=
  if bool_decide (length stateVector ≠ 2 ^ qubits)
  then Aborted stateVector BadBufferLength
  else applyOperations stateVector ops qubits.

(** ** Vocabulary of the properties *)

(** An index tuple for the gate [g] over the buffer [st]: [2^k] positions of
    the buffer. *)
Definition tuple_over (g : Gate) (st : list CplxType) (indices : list nat) : Prop :=
  length indices = length_ g ∧ Forall (λ i, i < length st) indices.

(** A valid index tuple: one the driver forms (§3, decomposition
    invariant), [2^k] pairwise distinct positions of the buffer. *)
Definition valid_tuple (g : Gate) (st : list CplxType) (indices : list nat) : Prop :=
  tuple_over g st indices ∧ NoDup indices.

(** The amplitudes found at the positions of an index tuple. *)
Definition amplitudes (st : list CplxType) (indices : list nat) : list CplxType :=
  (λ i, st !!! i) <$> indices.

(** Row [i] of the row-major [matrix] times the vector [w], accumulated from
    zero in the order of the scatter loop: the sum over [j] of
    [matrix[i * n + j] * w[j]], [n] being the length of [w]. *)
Definition row_product (matrix w : list CplxType) (i : nat) : CplxType :=
  foldl (λ acc j, acc + matrix !!! (i * length w + j)%nat * w !!! j)%C 0%C
        (seq 0 (length w)).

(** The writes [st[indices[i]] = value i], for [i] from 0 upwards. *)
Definition scatter_write (indices : list nat) (value : nat → CplxType)
    (acc : list CplxType) (i : nat) : list CplxType :=
  <[indices !!! i:=value i]> acc.

Definition scatter (st : list CplxType) (indices : list nat)
    (value : nat → CplxType) : list CplxType :=
  foldl (scatter_write indices value) st (seq 0 (length indices)).

(** The slots of its index tuple that the kernel of a gate assigns to. *)
Definition written_slots (g : Gate) : list nat :=
  match g with
  | ZGate | SGate | TGate | PhaseShiftGate _ => [1]
  | XGate | YGate | HadamardGate | RotationZGate _ _
  | RotationXGate _ _ | RotationYGate _ _
  | GeneralRotationGate _ _ _ _ _ _ => [0; 1]
  | CNOTGate | CRotationXGate _ _ | CRotationYGate _ _ | CRotationZGate _ _
  | CGeneralRotationGate _ _ _ _ _ _ => [2; 3]
  | SWAPGate => [1; 2]
  | CZGate => [3]
  | ToffoliGate => [6; 7]
  | CSWAPGate => [5; 6]
  end.

(** The state buffer a kernel run leaves, if it completes. *)
Definition state_after (o : outcome unit) : option (list CplxType) :=
  match o with Done _ m => Some (state m) | Fault _ => None end.

(** A small program logic for kernels.  [inv st0 len W m]: the memory [m]
    still has a buffer as long as [st0] and a scratch vector of length
    [len], and its buffer differs from [st0] only at positions in [W]. *)
Definition inv (st0 : list CplxType) (len : nat) (W : nat → Prop) (m : mem) : Prop :=
  length (state m) = length st0 ∧ length (v m) = len ∧
  ∀ p, ¬ W p → state m !! p = st0 !! p.

(** [triple st0 len W c Q]: from a memory satisfying the invariant, [c] runs
    to completion, its value satisfies [Q] and the invariant still holds. *)
Definition triple {A} (st0 : list CplxType) (len : nat) (W : nat → Prop)
    (c : kernel A) (Q : A → Prop) : Prop :=
  ∀ m, inv st0 len W m → ∃ a m', c m = Done a m' ∧ Q a ∧ inv st0 len W m'.

(** The positions that the slots [slots] of an index tuple hold. *)
Definition positions_of (indices slots : list nat) (p : nat) : Prop :=
  ∃ j, j ∈ slots ∧ indices !! j = Some p.

(** The gates that the spec (§8) lists as their own inverse. *)
Definition self_inverse (g : Gate) : Prop :=
  match g with
  | XGate | YGate | ZGate | HadamardGate
  | CNOTGate | SWAPGate | CZGate | ToffoliGate | CSWAPGate => True
  | _ => False
  end.

(** ** Vocabulary of the further properties *)

(** The complex conjugate. *)
Definition conj (a : CplxType) : CplxType := (a.1, (- a.2)%R).

(** Row [i] of the row-major [n] by [n] [matrix] times the conjugate of row
    [j]: the entry [(i, j)] of the matrix times its conjugate transpose. *)
Definition row_dot_conj (matrix : list CplxType) (n i j : nat) : CplxType :=
  foldl (λ acc k, acc + matrix !!! (i * n + k)%nat * conj (matrix !!! (j * n + k)%nat))%C
        0%C (seq 0 n).

Definition unitary (matrix : list CplxType) (n : nat) : Prop :=
  ∀ i j, i < n → j < n →
    row_dot_conj matrix n i j = if decide (i = j) then 1%C else 0%C.

(** The instances that the constructors of the gate classes build: the
    scalars of a parametrised gate are those that its constructor computes
    from some angles. *)
Definition constructible (g : Gate) : Prop :=
  match g with
  | RotationXGate _ _ => ∃ θ, g = mkRotationXGate θ
  | RotationYGate _ _ => ∃ θ, g = mkRotationYGate θ
  | RotationZGate _ _ => ∃ θ, g = mkRotationZGate θ
  | PhaseShiftGate _ => ∃ φ, g = mkPhaseShiftGate φ
  | GeneralRotationGate _ _ _ _ _ _ => ∃ φ θ ω, g = mkGeneralRotationGate φ θ ω
  | CRotationXGate _ _ => ∃ θ, g = mkCRotationXGate θ
  | CRotationYGate _ _ => ∃ θ, g = mkCRotationYGate θ
  | CRotationZGate _ _ => ∃ θ, g = mkCRotationZGate θ
  | CGeneralRotationGate _ _ _ _ _ _ => ∃ φ θ ω, g = mkCGeneralRotationGate φ θ ω
  | _ => True
  end.

(** The static [label] member of the class of a gate instance. *)
Definition label_of (g : Gate) : string :=
  match g with
  | XGate => XGate_label
  | YGate => YGate_label
  | ZGate => ZGate_label
  | HadamardGate => HadamardGate_label
  | SGate => SGate_label
  | TGate => TGate_label
  | RotationXGate _ _ => RotationXGate_label
  | RotationYGate _ _ => RotationYGate_label
  | RotationZGate _ _ => RotationZGate_label
  | PhaseShiftGate _ => PhaseShiftGate_label
  | GeneralRotationGate _ _ _ _ _ _ => GeneralRotationGate_label
  | CNOTGate => CNOTGate_label
  | SWAPGate => SWAPGate_label
  | CZGate => CZGate_label
  | CRotationXGate _ _ => CRotationXGate_label
  | CRotationYGate _ _ => CRotationYGate_label
  | CRotationZGate _ _ => CRotationZGate_label
  | CGeneralRotationGate _ _ _ _ _ _ => CGeneralRotationGate_label
  | ToffoliGate => ToffoliGate_label
  | CSWAPGate => CSWAPGate_label
  end.

(** The buffer that the gather, multiply and scatter of the gate's matrix
    leaves. *)
Definition matrix_applied (g : Gate) (st : list CplxType) (indices : list nat)
    : list CplxType :=
  scatter st indices (row_product (asMatrix g) (amplitudes st indices)).

(** The buffer that the kernel of a gate leaves, if it completes. *)
Definition buffer_after (g : Gate) (indices : list nat) (st scratch : list CplxType)
    : option (list CplxType) :=
  state_after (applyKernel g indices (Mem st scratch)).

(** The kernels of a list of gates, one call after another with the same
    index tuple, on the same memory. *)
Fixpoint applyKernels (gates : list Gate) (indices : list nat) : kernel unit :=
  match gates with
  | [] => mret ()
  | g :: rest => applyKernel g indices;; applyKernels rest indices
  end.

(** The squared modulus of an amplitude and the squared norm of a buffer. *)
Definition abs2 (a : CplxType) : R := (a.1 * a.1 + a.2 * a.2)%R.

Fixpoint norm2 (st : list CplxType) : R :=
  match st with
  | [] => 0%R
  | a :: st' => (abs2 a + norm2 st')%R
  end.

(** The buffer [a * st + b * st'], slot by slot. *)
Definition superpose (a b : CplxType) (st st' : list CplxType) : list CplxType :=
  zip_with (λ x y, a * x + b * y)%C st st'.

(** The gate that undoes a rotation: the same class on the negated angle;
    for the general rotations the negated angles in reverse order. *)
Inductive undoes : Gate → Gate → Prop :=
  | undoes_RX θ : undoes (mkRotationXGate θ) (mkRotationXGate (- θ))
  | undoes_RY θ : undoes (mkRotationYGate θ) (mkRotationYGate (- θ))
  | undoes_RZ θ : undoes (mkRotationZGate θ) (mkRotationZGate (- θ))
  | undoes_PhaseShift φ : undoes (mkPhaseShiftGate φ) (mkPhaseShiftGate (- φ))
  | undoes_Rot φ θ ω :
      undoes (mkGeneralRotationGate φ θ ω) (mkGeneralRotationGate (- ω) (- θ) (- φ))
  | undoes_CRX θ : undoes (mkCRotationXGate θ) (mkCRotationXGate (- θ))
  | undoes_CRY θ : undoes (mkCRotationYGate θ) (mkCRotationYGate (- θ))
  | undoes_CRZ θ : undoes (mkCRotationZGate θ) (mkCRotationZGate (- θ))
  | undoes_CRot φ θ ω :
      undoes (mkCGeneralRotationGate φ θ ω) (mkCGeneralRotationGate (- ω) (- θ) (- φ)).

(** [composes g1 g2 g12]: [g1], [g2] and [g12] are built by the constructor
    of one single-angle class, on two angles and on their sum. *)
Inductive composes : Gate → Gate → Gate → Prop :=
  | composes_RX α β :
      composes (mkRotationXGate α) (mkRotationXGate β) (mkRotationXGate (α + β))
  | composes_RY α β :
      composes (mkRotationYGate α) (mkRotationYGate β) (mkRotationYGate (α + β))
  | composes_RZ α β :
      composes (mkRotationZGate α) (mkRotationZGate β) (mkRotationZGate (α + β))
  | composes_PhaseShift α β :
      composes (mkPhaseShiftGate α) (mkPhaseShiftGate β) (mkPhaseShiftGate (α + β))
  | composes_CRX α β :
      composes (mkCRotationXGate α) (mkCRotationXGate β) (mkCRotationXGate (α + β))
  | composes_CRY α β :
      composes (mkCRotationYGate α) (mkCRotationYGate β) (mkCRotationYGate (α + β))
  | composes_CRZ α β :
      composes (mkCRotationZGate α) (mkCRotationZGate β) (mkCRotationZGate (α + β)).

(** The three rotations, in the order of application, that make up a general
    rotation. *)
Inductive decomposes : Gate → list Gate → Prop :=
  | decomposes_Rot φ θ ω :
      decomposes (mkGeneralRotationGate φ θ ω)
                 [mkRotationZGate φ; mkRotationYGate θ; mkRotationZGate ω]
  | decomposes_CRot φ θ ω :
      decomposes (mkCGeneralRotationGate φ θ ω)
                 [mkCRotationZGate φ; mkCRotationYGate θ; mkCRotationZGate ω].

(** The gate whose action a controlled gate has on the last slots of its
    index tuple, and the number of slots before them. *)
Definition controlled_target (g : Gate) : option (Gate * nat) :=
  match g with
  | CNOTGate => Some (XGate, 2)
  | CZGate => Some (ZGate, 2)
  | CRotationXGate c js => Some (RotationXGate c js, 2)
  | CRotationYGate c s => Some (RotationYGate c s, 2)
  | CRotationZGate first second => Some (RotationZGate first second, 2)
  | CGeneralRotationGate c s r1 r2 r3 r4 => Some (GeneralRotationGate c s r1 r2 r3 r4, 2)
  | ToffoliGate => Some (CNOTGate, 4)
  | CSWAPGate => Some (SWAPGate, 4)
  | _ => None
  end.

(** The gates whose class overrides [applyKernel]. *)
Definition overrides_applyKernel (g : Gate) : bool :=
  match g with
  | RotationXGate _ _ | RotationYGate _ _ | GeneralRotationGate _ _ _ _ _ _ => false
  | _ => true
  end.

(** The number of leading slots of the scratch vector that the kernel of a
    gate uses. *)
Definition scratch_slots (g : Gate) : nat :=
  match g with
  | YGate => 1
  | HadamardGate | CRotationXGate _ _ | CRotationYGate _ _
  | CGeneralRotationGate _ _ _ _ _ _ => 2
  | RotationXGate _ _ | RotationYGate _ _ | GeneralRotationGate _ _ _ _ _ _ => length_ g
  | _ => 0
  end.

(** The slots of the index tuple that the kernel of a gate reads exist and
    hold positions of the buffer. *)
Definition slots_in_range (g : Gate) (st : list CplxType) (indices : list nat) : Prop :=
  Forall (λ j, ∃ p, indices !! j = Some p ∧ p < length st) (written_slots g).

(** The index tuple with the slots of two qubits exchanged: of the two
    qubits of SWAP and CZ, of the two controls of Toffoli, of the two
    targets of CSWAP.  Slot [4a + 2b + c] of a tuple of eight belongs to the
    values [a], [b], [c] of the three qubits, slot [2a + b] of a tuple of
    four to the values [a], [b] of the two. *)
Definition exchanged (g : Gate) (indices : list nat) : option (list nat) :=
  match g, indices with
  | (SWAPGate | CZGate), [i0; i1; i2; i3] => Some [i0; i2; i1; i3]
  | ToffoliGate, [i0; i1; i2; i3; i4; i5; i6; i7] =>
      Some [i0; i1; i4; i5; i2; i3; i6; i7]
  | CSWAPGate, [i0; i1; i2; i3; i4; i5; i6; i7] =>
      Some [i0; i2; i1; i3; i4; i6; i5; i7]
  | _, _ => None
  end.

(** ** The Hadamard kernel in the arithmetic of the code *)

(** [std::complex<double>] as the code has it: a pair of binary64 numbers,
    with the sum, the difference and the product that [operator+],
    [operator-] and [operator*] compute on finite operands, every operation
    rounded to nearest.  The memory, the faults and the monad are those of
    the kernels above, over these amplitudes. *)
Module Binary64.

Definition CplxType : Type := (float * float)%type.

Definition add (a b : CplxType) : CplxType := (a.1 + b.1, a.2 + b.2)%float.

Definition sub (a b : CplxType) : CplxType := (a.1 - b.1, a.2 - b.2)%float.

Definition mul (a b : CplxType) : CplxType :=
  (a.1 * b.1 - a.2 * b.2, a.1 * b.2 + a.2 * b.1)%float.

Record mem : Type := Mem { state : list CplxType; v : list CplxType }.

Inductive outcome (A : Type) : Type :=
  | Done (a : A) (m : mem)
  | Fault (f : fault).
Arguments Done {A} a m.
Arguments Fault {A} f.

Definition kernel (A : Type) : Type := mem → outcome A.

#[export] Instance binary64_ret : MRet kernel := λ A x m, Done x m.
#[export] Instance binary64_bind : MBind kernel :=
  λ A B f c m, match c m with Done a m' => f a m' | Fault e => Fault e end.

Definition at_ {A} (vec : list A) (i : nat) : kernel A :=
  λ m, match vec !! i with Some x => Done x m | None => Fault OutOfBounds end.

Definition load_state (i : nat) : kernel CplxType :=
  λ m, match state m !! i with Some x => Done x m | None => Fault OutOfBounds end.

Definition store_state (i : nat) (x : CplxType) : kernel unit :=
  λ m, if decide (i < length (state m))
       then Done () (Mem (<[i:=x]> (state m)) (v m))
       else Fault OutOfBounds.

Definition load_v (i : nat) : kernel CplxType :=
  λ m, match v m !! i with Some x => Done x m | None => Fault OutOfBounds end.

Definition store_v (i : nat) (x : CplxType) : kernel unit :=
  λ m, if decide (i < length (v m))
       then Done () (Mem (state m) (<[i:=x]> (v m)))
       else Fault OutOfBounds.

(** [HadamardGate::applyKernel], for the value [SQRT2INV] that the header
    gives. *)
Definition HadamardGate_applyKernel (SQRT2INV : CplxType) (indices : list nat)
    : kernel unit :=
  i0 ← at_ indices 0; s0 ← load_state i0; store_v 0 s0;;
  i1 ← at_ indices 1; s1 ← load_state i1; store_v 1 s1;;
  v0 ← load_v 0; v1 ← load_v 1;
  i0 ← at_ indices 0; store_state i0 (mul SQRT2INV (add v0 v1));;
  v0 ← load_v 0; v1 ← load_v 1;
  i1 ← at_ indices 1; store_state i1 (mul SQRT2INV (sub v0 v1)).

(** The header that defines [SQRT2INV] is not part of the sources at hand.
    These are the two binary64 numbers that enclose 1/√2: the decimal
    0.7071067811865475 denotes the first, and [1 / sqrt(2)] evaluates to
    the second. *)
Definition SQRT2INV_below : CplxType := (0x1.6a09e667f3bccp-1, 0)%float.

Definition SQRT2INV_above : CplxType := (0x1.6a09e667f3bcdp-1, 0)%float.

End Binary64.

(** * Properties *)

#[global] Arguments Cplx.add : simpl never.
#[global] Arguments Cplx.mul : simpl never.
#[global] Arguments Cplx.sub : simpl never.
#[global] Arguments Cplx.opp : simpl never.
#[global] Arguments Cplx.zero : simpl never.
#[global] Arguments Cplx.one : simpl never.
#[global] Arguments Cplx.expi : simpl never.
#[global] Arguments Cplx.mk : simpl never.
#[global] Arguments dispatchTable : simpl never.
#[global] Arguments constructGate : simpl never.
#[global] Arguments constructAndApplyOperation : simpl never.

(** ** Complex numbers form a commutative ring *)

Lemma Cplx_ring_theory :
  ring_theory Cplx.zero Cplx.one Cplx.add Cplx.mul Cplx.sub Cplx.opp (@eq CplxType).
Proof.
  constructor; intros;
    repeat match goal with x : CplxType |- _ => destruct x end;
    unfold Cplx.zero, Cplx.one, Cplx.add, Cplx.mul, Cplx.sub, Cplx.opp;
    simpl; f_equal; ring.
Qed.

Add Ring cplx_ring : Cplx_ring_theory.

(** ** Running the memory operations *)

Lemma run_bind {A B} (c : kernel A) (f : A → kernel B) (m : mem) :
  (c ≫= f) m = match c m with Done a m' => f a m' | Fault e => Fault e end.
Proof. reflexivity. Qed.

Lemma run_at {A} (vec : list A) i x m :
  vec !! i = Some x → at_ vec i m = Done x m.
Proof. unfold at_. by intros ->. Qed.

Section Run.
Context (st scratch : list CplxType).

Lemma run_load_state i x :
  st !! i = Some x → load_state i (Mem st scratch) = Done x (Mem st scratch).
Proof. unfold load_state; simpl. by intros ->. Qed.

Lemma run_store_state i x :
  i < length st →
  store_state i x (Mem st scratch) = Done () (Mem (<[i:=x]> st) scratch).
Proof. intros. unfold store_state; simpl. by rewrite decide_True. Qed.

Lemma run_load_v i x :
  scratch !! i = Some x → load_v i (Mem st scratch) = Done x (Mem st scratch).
Proof. unfold load_v; simpl. by intros ->. Qed.

Lemma run_store_v i x :
  i < length scratch →
  store_v i x (Mem st scratch) = Done () (Mem st (<[i:=x]> scratch)).
Proof. intros. unfold store_v; simpl. by rewrite decide_True. Qed.
End Run.

(** Side conditions: a position is inside a buffer that has only been
    written to; two positions of a duplicate-free tuple differ. *)
Ltac side := rewrite ?length_insert; first [assumption | simpl; lia].

Ltac differ := solve [assumption | apply not_eq_sym; assumption | discriminate].

(** Closed side conditions on concrete inputs, by evaluation. *)
Ltac by_evaluation :=
  unfold valid_tuple, tuple_over, length_;
  solve [ exact I | reflexivity | apply (bool_decide_unpack _); vm_compute; exact I ].

Ltac lookup_tac :=
  repeat first
    [ rewrite list_lookup_insert_eq by side
    | rewrite list_lookup_insert_ne by differ
    | eassumption | reflexivity ].

Ltac run1 :=
  first
    [ rewrite run_bind
    | erewrite run_at by (simpl; reflexivity)
    | erewrite run_load_state by lookup_tac
    | erewrite run_load_v by lookup_tac
    | rewrite run_store_state by side
    | rewrite run_store_v by side ].

Ltac run := repeat run1.

(** ** The generic kernel, phase by phase *)

Lemma lookup_amplitude (st : list CplxType) i :
  i < length st → st !! i = Some (st !!! i).
Proof. apply list_lookup_lookup_total_lt. Qed.

(** The gather loop fills [v[pos ..]] with the amplitudes and leaves the
    state buffer alone. *)
Lemma gather_run indices : ∀ pos st scratch,
  Forall (λ i, i < length st) indices →
  pos + length indices ≤ length scratch →
  gather indices pos (Mem st scratch) =
  Done () (Mem st (take pos scratch ++ amplitudes st indices
                   ++ drop (pos + length indices) scratch)).
Proof.
  induction indices as [|index rest IH]; intros pos st scratch Hin Hlen; simpl.
  - by rewrite Nat.add_0_r, take_drop.
  - apply Forall_cons in Hin as [Hindex Hrest]. simpl in Hlen.
    rewrite run_bind, (run_load_state _ _ _ _ (lookup_amplitude _ _ Hindex)).
    rewrite run_bind, run_store_v by lia.
    rewrite IH by (rewrite ?length_insert; done || lia).
    do 2 f_equal.
    rewrite (take_S_r _ _ (st !!! index)) by (apply list_lookup_insert_eq; lia).
    rewrite take_insert_ge by lia.
    rewrite drop_insert_lt by lia.
    rewrite <- app_assoc. simpl. by rewrite Nat.add_succ_r.
Qed.

Lemma gather_all_run indices st scratch :
  Forall (λ i, i < length st) indices →
  length scratch = length indices →
  gather indices 0 (Mem st scratch) = Done () (Mem st (amplitudes st indices)).
Proof.
  intros Hin Hlen. rewrite gather_run by (done || lia).
  rewrite take_0, drop_ge by lia. by rewrite app_nil_r.
Qed.

(** The accumulation loop of one row. *)
Lemma accumulate_run matrix w st index base :
  index < length st →
  ∀ count j acc,
    base + j + count ≤ length matrix → j + count ≤ length w →
    for_from (λ j,
        mj ← at_ matrix (base + j);
        vj ← load_v j;
        s ← load_state index;
        store_state index (s + mj * vj)%C) j count (Mem (<[index:=acc]> st) w) =
    Done () (Mem (<[index:=foldl (λ acc j, acc + matrix !!! (base + j)%nat * w !!! j)%C
                                  acc (seq j count)]> st) w).
Proof.
  intros Hindex. induction count as [|count IH]; intros j acc Hm Hw; simpl; [done|].
  assert (Hmj : base + j < length matrix) by lia.
  assert (Hwj : j < length w) by lia.
  rewrite run_bind, run_bind.
  rewrite (run_at _ _ _ _ (lookup_amplitude matrix (base + j) Hmj)).
  rewrite run_bind, (run_load_v _ _ _ _ (lookup_amplitude w j Hwj)).
  rewrite run_bind, (run_load_state _ _ index acc)
    by (apply list_lookup_insert_eq; lia).
  rewrite run_store_state by (rewrite length_insert; lia).
  rewrite list_insert_insert_eq. apply IH; lia.
Qed.

(** One round of the scatter loop writes the row product. *)
Lemma scatter_row_run matrix indices w st i :
  length w = length indices →
  length matrix = length indices * length indices →
  i < length indices →
  indices !!! i < length st →
  scatter_row matrix indices i (Mem st w) =
  Done () (Mem (<[indices !!! i:=row_product matrix w i]> st) w).
Proof.
  intros Hw Hm Hi Hindex. unfold scatter_row.
  rewrite run_bind, (run_at _ _ _ _ (list_lookup_lookup_total_lt indices i Hi)).
  rewrite run_bind, run_store_state by done.
  rewrite accumulate_run; [|done|nia|lia].
  unfold row_product. by rewrite Hw.
Qed.

Lemma scatter_loop_run matrix indices w :
  length w = length indices →
  length matrix = length indices * length indices →
  ∀ count i st,
    i + count ≤ length indices →
    Forall (λ i, i < length st) indices →
    for_from (scatter_row matrix indices) i count (Mem st w) =
    Done () (Mem (foldl (scatter_write indices (row_product matrix w))
                        st (seq i count)) w).
Proof.
  intros Hw Hm. induction count as [|count IH]; intros i st Hi Hin; simpl; [done|].
  rewrite run_bind, scatter_row_run; [|done|done|lia|].
  - apply IH; [lia|]. unfold scatter_write. by rewrite length_insert.
  - apply (Forall_lookup_1 (λ i, i < length st) indices i); [exact Hin|].
    apply list_lookup_lookup_total_lt. lia.
Qed.

(** The generic kernel is the gather phase followed by the scatter phase:
    the scratch vector ends as the pre-call amplitudes, and the buffer as
    the pre-call buffer with the row products written over it. *)
Lemma AbstractGate_applyKernel_run matrix len indices st scratch :
  length indices = len → length scratch = len →
  length matrix = len * len →
  Forall (λ i, i < length st) indices →
  AbstractGate_applyKernel matrix len indices (Mem st scratch) =
  Done () (Mem (scatter st indices (row_product matrix (amplitudes st indices)))
               (amplitudes st indices)).
Proof.
  intros Hi Hs Hm Hin. unfold AbstractGate_applyKernel.
  rewrite run_bind; simpl. rewrite run_bind.
  unfold assert. rewrite bool_decide_eq_true_2 by done.
  rewrite run_bind, gather_all_run by (done || lia).
  rewrite scatter_loop_run; try done.
  - unfold amplitudes. by rewrite length_fmap.
  - by subst len.
Qed.

Lemma length_asMatrix g : length (asMatrix g) = length_ g * length_ g.
Proof. by destruct g. Qed.

Lemma generic_applyKernel_run g indices st scratch :
  tuple_over g st indices → length scratch = length_ g →
  generic_applyKernel g indices (Mem st scratch) =
  Done () (Mem (scatter st indices (row_product (asMatrix g) (amplitudes st indices)))
               (amplitudes st indices)).
Proof.
  intros [Hlen Hin] Hs.
  by apply AbstractGate_applyKernel_run; [| |apply length_asMatrix|].
Qed.

(** ** The specialized kernels on a valid index tuple *)

(** Bring a tuple hypothesis into the form of named positions, amplitudes
    and disequalities. *)
Ltac name_amplitudes st :=
  repeat match goal with
  | H : Forall _ (_ :: _) |- _ => apply Forall_cons in H as [? H]
  | H : Forall _ [] |- _ => clear H
  end;
  repeat match goal with
  | H : ?i < length st |- _ =>
      let a := fresh "a" in
      let Ha := fresh "Ha" in
      destruct (lookup_lt_is_Some_2 st i H) as [a Ha];
      try rewrite (list_lookup_total_correct st i a Ha) in *;
      clear H
  end;
  repeat match goal with
  | Ha : st !! ?i = Some _ |- _ =>
      lazymatch goal with
      | _ : i < length st |- _ => fail
      | _ => pose proof (lookup_lt_Some _ _ _ Ha)
      end
  end.

Ltac distinct_positions :=
  repeat match goal with
  | H : NoDup (_ :: _) |- _ => apply NoDup_cons in H as [? H]
  | H : NoDup [] |- _ => clear H
  | H : _ ∉ _ :: _ |- _ => apply not_elem_of_cons in H as [? H]
  | H : _ ∉ [] |- _ => clear H
  end.

Ltac explode_tuple indices :=
  repeat (destruct indices as [|? indices]; [discriminate|]);
  destruct indices; [|discriminate].

(** Compare two buffers given as writes over [st], position by position. *)
Ltac read_through :=
  repeat first
    [ rewrite list_lookup_insert_eq by side
    | rewrite list_lookup_insert_ne by differ ];
  repeat match goal with H : _ !! _ = Some _ |- _ => rewrite H end.

Ltac compare_buffers closer :=
  apply list_eq; intros p;
  repeat match goal with
  | |- context [ <[?i:=_]> _ !! p ] =>
      first
        [ rewrite !(list_lookup_insert_ne _ i p) by differ
        | destruct (decide (i = p)) as [<-|?];
          [ read_through; f_equal; closer
          | rewrite !(list_lookup_insert_ne _ i p) by done ] ]
  end;
  try reflexivity.

Ltac unfold_kernels :=
  cbv [applyKernel XGate_applyKernel YGate_applyKernel ZGate_applyKernel
       HadamardGate_applyKernel SGate_applyKernel TGate_applyKernel
       RotationZGate_applyKernel PhaseShiftGate_applyKernel
       CNOTGate_applyKernel SWAPGate_applyKernel CZGate_applyKernel
       CRotationXGate_applyKernel CRotationYGate_applyKernel
       CRotationZGate_applyKernel CGeneralRotationGate_applyKernel
       ToffoliGate_applyKernel CSWAPGate_applyKernel
       swap_state scale_state].

(** On a valid tuple the kernel of every gate and the generic kernel on the
    gate's matrix complete with the same buffer: both are run symbolically
    and the two buffers compared position by position. *)
Lemma specialized_matches_generic g st indices scratch :
  valid_tuple g st indices → length scratch = length_ g →
  ∃ st', state_after (applyKernel g indices (Mem st scratch)) = Some st' ∧
         state_after (generic_applyKernel g indices (Mem st scratch)) = Some st'.
Proof.
  intros [Htuple Hnd] Hs.
  pose proof (generic_applyKernel_run g indices st scratch Htuple Hs) as Hgen.
  destruct g; try (by cbv [applyKernel]; rewrite Hgen; eexists);
    rewrite Hgen; clear Hgen; destruct Htuple as [Hlen Hin];
    cbv [length_ numQubits] in Hlen, Hs; simpl in Hlen, Hs;
    explode_tuple indices; unfold amplitudes; simpl fmap;
    name_amplitudes st; distinct_positions;
    unfold_kernels; run; simpl; eexists; (split; [reflexivity|]); f_equal;
    unfold row_product, scatter, scatter_write; simpl; compare_buffers ltac:(ring).
Qed.

(** ** Involutions *)

Lemma IMAG_sq : (IMAG * IMAG)%C = (- (1))%C.
Proof.
  unfold IMAG, Cplx.mk, Cplx.mul, Cplx.opp, Cplx.one; simpl. f_equal; ring.
Qed.

Lemma SQRT2INV_sq_twice : (SQRT2INV * SQRT2INV + SQRT2INV * SQRT2INV)%C = 1%C.
Proof.
  assert (Hs : (/ sqrt 2 * / sqrt 2 = / 2)%R).
  { rewrite <- Rinv_mult, sqrt_sqrt by lra. reflexivity. }
  unfold SQRT2INV, Cplx.mk, Cplx.mul, Cplx.add, Cplx.one; simpl.
  f_equal; rewrite ?Hs; lra.
Qed.

Ltac undo_twice :=
  first
    [ ring
    | match goal with
      | |- _ = ?a =>
          transitivity (- (IMAG * IMAG) * a)%C; [ring|rewrite IMAG_sq; ring]
      end
    | match goal with
      | |- _ = ?a =>
          transitivity ((SQRT2INV * SQRT2INV + SQRT2INV * SQRT2INV) * a)%C;
          [ring|rewrite SQRT2INV_sq_twice; ring]
      end ].

(** C7.  In exact complex arithmetic, for PauliX, PauliY, PauliZ, Hadamard,
    CNOT, SWAP, CZ, Toffoli and CSWAP, on every buffer, every index tuple of
    [2^k] positions of the buffer (pairwise distinct when the gate is PauliY
    or Hadamard) and every scratch vector of length [2^k]: the kernel
    applied twice in succession with the same tuple completes both times
    and leaves the buffer as it was before the first application.  In the
    doubles of the code this is the claim up to floating-point round-off. *)
Theorem self_inverse_kernel_twice g st indices scratch :
  self_inverse g → tuple_over g st indices →
  (g = YGate ∨ g = HadamardGate → NoDup indices) →
  length scratch = length_ g →
  ∃ m1 m2,
    applyKernel g indices (Mem st scratch) = Done () m1 ∧
    applyKernel g indices m1 = Done () m2 ∧
    state m2 = st.
Proof.
  intros Hg [Hlen Hin] Hnd Hs.
  destruct g; try (by destruct Hg);
    cbv [length_ numQubits] in Hlen, Hs; simpl in Hlen, Hs;
    explode_tuple indices;
    match goal with
    | |- context [applyKernel ?g ?tuple] =>
        lazymatch eval cbv in (written_slots g) with
        | [?a; ?b] =>
            first
              [ assert (NoDup tuple) by (apply Hnd; (left + right); reflexivity);
                distinct_positions
              | destruct (decide (tuple !!! a = tuple !!! b)) as [Heq|Hne];
                [simpl in Heq; subst|simpl in Hne] ]
        | _ => idtac
        end
    end;
    clear Hnd; name_amplitudes st; simplify_eq;
    unfold_kernels; do 2 eexists;
    (split; [run; reflexivity|]); (split; [run; reflexivity|]);
    simpl; compare_buffers ltac:(undo_twice).
Qed.

Lemma self_inverse_kernel_twice_witness :
  ∃ m1 m2,
    applyKernel HadamardGate [2; 0] (Mem [1; 0; 0]%C [0; 0]%C) = Done () m1 ∧
    applyKernel HadamardGate [2; 0] m1 = Done () m2 ∧
    state m2 = [1; 0; 0]%C.
Proof.
  apply (self_inverse_kernel_twice HadamardGate [1; 0; 0]%C [2; 0] [0; 0]%C);
    [by_evaluation|by_evaluation|intros _; by_evaluation|by_evaluation].
Defined.

(** C7 as stated fails for Hadamard in two ways.

    On a tuple that repeats a position: on the buffer [1] with the tuple
    [0, 0] the kernel gathers 1 twice, writes [SQRT2INV * (1 + 1)] and then
    [SQRT2INV * (1 - 1)] to position 0, so that the buffer is [0] after the
    first call, and stays [0] after the second.

    In the doubles of the code, on distinct positions: on the buffer [1, 0]
    with the tuple [0, 1], the first call leaves [s, s] and the second
    [s * (s + s), 0], for [s] the value of [SQRT2INV]; in binary64 the
    product [s * (s + s)] is 1 - 2^-52 for the double below 1/√2 and
    1 + 2^-52 for the double above it, and not 1. *)
Lemma self_inverse_kernel_twice_fails_as_stated :
  let st := [(1, 0); (0, 0)]%float in
  let scratch := [(0, 0); (0, 0)]%float in
  let below := [Binary64.SQRT2INV_below; Binary64.SQRT2INV_below] in
  let above := [Binary64.SQRT2INV_above; Binary64.SQRT2INV_above] in
  (tuple_over HadamardGate [1]%C [0; 0] ∧
   length [0; 0]%C = length_ HadamardGate ∧
   applyKernel HadamardGate [0; 0] (Mem [1]%C [0; 0]%C)
   = Done () (Mem [0]%C [1; 1]%C) ∧
   applyKernel HadamardGate [0; 0] (Mem [0]%C [1; 1]%C)
   = Done () (Mem [0]%C [0; 0]%C) ∧
   [0]%C ≠ [1]%C) ∧
  (Binary64.HadamardGate_applyKernel Binary64.SQRT2INV_below [0; 1]
     (Binary64.Mem st scratch) = Binary64.Done () (Binary64.Mem below st) ∧
   Binary64.HadamardGate_applyKernel Binary64.SQRT2INV_below [0; 1]
     (Binary64.Mem below st)
   = Binary64.Done () (Binary64.Mem [(0x1.ffffffffffffep-1, 0); (0, 0)]%float below) ∧
   (0x1.ffffffffffffep-1 =? 1)%float = false) ∧
  (Binary64.HadamardGate_applyKernel Binary64.SQRT2INV_above [0; 1]
     (Binary64.Mem st scratch) = Binary64.Done () (Binary64.Mem above st) ∧
   Binary64.HadamardGate_applyKernel Binary64.SQRT2INV_above [0; 1]
     (Binary64.Mem above st)
   = Binary64.Done () (Binary64.Mem [(0x1.0000000000001p+0, 0); (0, 0)]%float above) ∧
   (0x1.0000000000001p+0 =? 1)%float = false).
Proof.
  cbv zeta. split; [|repeat split; vm_compute; reflexivity].
  split; [by_evaluation|]. split; [reflexivity|].
  assert (Hzero : (SQRT2INV * (1 - 1))%C = 0%C) by ring.
  assert (Hzero' : (SQRT2INV * (0 - 0))%C = 0%C) by ring.
  split; [|split].
  - unfold_kernels. run. simpl. by rewrite Hzero.
  - unfold_kernels. run. simpl. by rewrite Hzero'.
  - intros [=]. lra.
Qed.

(** ** The program logic: completion and frame *)

Section Triple.
Context (st0 : list CplxType) (len : nat) (W : nat → Prop).

Local Abbreviation triple := (triple st0 len W).
Local Abbreviation inv := (inv st0 len W).

Lemma triple_ret {A} (x : A) : triple (mret x) (λ y, y = x).
Proof. intros m Hm. by exists x, m. Qed.

Lemma triple_bind {A B} (c : kernel A) (f : A → kernel B) Q Q' :
  triple c Q → (∀ a, Q a → triple (f a) Q') → triple (c ≫= f) Q'.
Proof.
  intros Hc Hf m Hm. destruct (Hc m Hm) as (a & m1 & Hrun & Ha & Hm1).
  destruct (Hf a Ha m1 Hm1) as (b & m2 & Hrun' & Hb & Hm2).
  exists b, m2. by rewrite run_bind, Hrun.
Qed.

Lemma triple_weaken {A} (c : kernel A) (Q Q' : A → Prop) :
  triple c Q → (∀ a, Q a → Q' a) → triple c Q'.
Proof.
  intros Hc HQ m Hm. destruct (Hc m Hm) as (a & m1 & Hrun & Ha & Hm1).
  exists a, m1. auto.
Qed.

Lemma triple_at {A} (vec : list A) i x :
  vec !! i = Some x → triple (at_ vec i) (λ y, y = x).
Proof. intros Hx m Hm. exists x, m. by rewrite (run_at _ _ _ _ Hx). Qed.

Lemma triple_at_lt {A} (vec : list A) i :
  i < length vec → triple (at_ vec i) (λ y, vec !! i = Some y).
Proof.
  intros Hi m Hm. destruct (lookup_lt_is_Some_2 vec i Hi) as [x Hx].
  exists x, m. by rewrite (run_at _ _ _ _ Hx).
Qed.

Lemma triple_assert b : b = true → triple (assert b) (λ _, True).
Proof. intros -> m Hm. by exists (), m. Qed.

Lemma triple_size : triple (λ m, Done (length (v m)) m) (λ sz, sz = len).
Proof. intros m Hm. exists (length (v m)), m. by destruct Hm as (? & ? & ?). Qed.

Lemma triple_load_state i : i < length st0 → triple (load_state i) (λ _, True).
Proof.
  intros Hi [st w] (Hst & Hw & Hframe); simpl in *.
  destruct (lookup_lt_is_Some_2 st i ltac:(lia)) as [x Hx].
  exists x, (Mem st w). by rewrite (run_load_state _ _ _ _ Hx).
Qed.

Lemma triple_load_v i : i < len → triple (load_v i) (λ _, True).
Proof.
  intros Hi [st w] (Hst & Hw & Hframe); simpl in *.
  destruct (lookup_lt_is_Some_2 w i ltac:(lia)) as [x Hx].
  exists x, (Mem st w). by rewrite (run_load_v _ _ _ _ Hx).
Qed.

Lemma triple_store_state i x :
  i < length st0 → W i → triple (store_state i x) (λ _, True).
Proof.
  intros Hi HW [st w] (Hst & Hw & Hframe); simpl in *.
  exists (), (Mem (<[i:=x]> st) w).
  rewrite run_store_state by lia. repeat split; simpl.
  - by rewrite length_insert.
  - done.
  - intros p Hp. rewrite list_lookup_insert_ne; [by apply Hframe|].
    by intros ->.
Qed.

Lemma triple_store_v i x : i < len → triple (store_v i x) (λ _, True).
Proof.
  intros Hi [st w] (Hst & Hw & Hframe); simpl in *.
  exists (), (Mem st (<[i:=x]> w)).
  rewrite run_store_v by lia. repeat split; simpl; [done| |done].
  by rewrite length_insert.
Qed.

Lemma triple_for_from body : ∀ count i,
  (∀ j, i ≤ j < i + count → triple (body j) (λ _, True)) →
  triple (for_from body i count) (λ _, True).
Proof.
  induction count as [|count IH]; intros i Hbody; simpl.
  - eapply triple_weaken; [apply triple_ret|done].
  - eapply triple_bind; [apply Hbody; lia|]. intros _ _. apply IH.
    intros j Hj. apply Hbody. lia.
Qed.

Lemma triple_gather indices : ∀ pos,
  Forall (λ i, i < length st0) indices → pos + length indices ≤ len →
  triple (gather indices pos) (λ _, True).
Proof.
  induction indices as [|index rest IH]; intros pos Hin Hlen; simpl.
  - eapply triple_weaken; [apply triple_ret|done].
  - apply Forall_cons in Hin as [Hindex Hrest]. simpl in Hlen.
    eapply triple_bind; [by apply triple_load_state|]. intros x _.
    eapply triple_bind; [apply triple_store_v; lia|]. intros _ _.
    apply IH; [done|lia].
Qed.

Lemma triple_swap_state i j :
  i < length st0 → j < length st0 → W i → W j →
  triple (swap_state i j) (λ _, True).
Proof.
  intros. unfold swap_state.
  eapply triple_bind; [by apply triple_load_state|]. intros tmp _.
  eapply triple_bind; [by apply triple_load_state|]. intros b _.
  eapply triple_bind; [by apply triple_store_state|].
  intros _ _. by apply triple_store_state.
Qed.

Lemma triple_scale_state i x :
  i < length st0 → W i → triple (scale_state i x) (λ _, True).
Proof.
  intros. unfold scale_state.
  eapply triple_bind; [by apply triple_load_state|]. intros s _.
  by apply triple_store_state.
Qed.

Lemma triple_run {A} (c : kernel A) Q scratch :
  length scratch = len → triple c Q →
  ∃ a m', c (Mem st0 scratch) = Done a m' ∧ Q a ∧
          length (state m') = length st0 ∧
          ∀ p, ¬ W p → state m' !! p = st0 !! p.
Proof.
  intros Hs Hc. destruct (Hc (Mem st0 scratch)) as (a & m' & Hrun & Ha & Hm').
  { by repeat split. }
  exists a, m'. by destruct Hm' as (? & ? & ?).
Qed.
End Triple.

(** The generic kernel completes and writes only at the positions of its
    index tuple. *)
Lemma triple_AbstractGate_applyKernel st0 matrix len indices :
  length indices = len → length matrix = len * len →
  Forall (λ i, i < length st0) indices →
  triple st0 len (positions_of indices (seq 0 len))
         (AbstractGate_applyKernel matrix len indices) (λ _, True).
Proof.
  intros Hlen Hm Hin. unfold AbstractGate_applyKernel.
  eapply triple_bind; [apply triple_size|]. intros sz ->.
  eapply triple_bind; [apply triple_assert; by rewrite bool_decide_eq_true_2|].
  intros _ _.
  eapply triple_bind; [apply triple_gather; [done|lia]|]. intros _ _.
  apply triple_for_from. intros i Hi. unfold scatter_row.
  eapply triple_bind; [apply triple_at_lt; lia|]. intros index Hindex.
  assert (Hb : index < length st0).
  { by apply (Forall_lookup_1 _ _ _ _ Hin Hindex). }
  assert (HW : positions_of indices (seq 0 len) index).
  { exists i. split; [apply elem_of_seq; lia|done]. }
  eapply triple_bind; [by apply triple_store_state|]. intros _ _.
  apply triple_for_from. intros j Hj.
  eapply triple_bind; [apply triple_at_lt; nia|]. intros mj _.
  eapply triple_bind; [apply triple_load_v; lia|]. intros vj _.
  eapply triple_bind; [by apply triple_load_state|]. intros s _.
  by apply triple_store_state.
Qed.

Ltac at_slot :=
  first [ exists 0; split; [set_solver|reflexivity]
        | exists 1; split; [set_solver|reflexivity]
        | exists 2; split; [set_solver|reflexivity]
        | exists 3; split; [set_solver|reflexivity]
        | exists 4; split; [set_solver|reflexivity]
        | exists 5; split; [set_solver|reflexivity]
        | exists 6; split; [set_solver|reflexivity]
        | exists 7; split; [set_solver|reflexivity] ].

Ltac triple_step :=
  first
    [ eapply triple_at; reflexivity
    | apply triple_load_state; assumption
    | apply triple_load_v; lia
    | apply triple_store_v; lia
    | apply triple_store_state; [assumption|at_slot]
    | apply triple_swap_state; [assumption|assumption|at_slot|at_slot]
    | apply triple_scale_state; [assumption|at_slot] ].

Ltac triple_steps :=
  first
    [ triple_step
    | eapply triple_bind;
      [ triple_steps
      | let Hq := fresh in intros ? Hq; cbv beta in Hq; subst; triple_steps ] ].

(** Every kernel completes on a tuple of positions of the buffer and writes
    only at the positions held by its written slots. *)
Lemma triple_applyKernel g st0 indices :
  tuple_over g st0 indices →
  triple st0 (length_ g) (positions_of indices (written_slots g))
         (applyKernel g indices) (λ _, True).
Proof.
  intros [Hlen Hin].
  destruct g;
    try (by apply triple_AbstractGate_applyKernel; [|apply length_asMatrix|]);
    cbv [length_ numQubits] in *; simpl in Hlen; simpl Nat.pow;
    explode_tuple indices;
    repeat match goal with
    | H : Forall _ (_ :: _) |- _ => apply Forall_cons in H as [? H]
    end;
    unfold_kernels; simpl written_slots; triple_steps.
Qed.

(** ** What the scatter phase leaves in the buffer *)

Section Scatter.
Context (indices : list nat) (value : nat → CplxType).

Local Abbreviation write := (scatter_write indices value).

Lemma scatter_from_length count : ∀ j acc,
  length (foldl write acc (seq j count)) = length acc.
Proof.
  induction count as [|count IH]; intros j acc; simpl; [done|].
  rewrite IH. apply length_insert.
Qed.

Lemma scatter_from_outside p count : ∀ j acc,
  (∀ i, j ≤ i < j + count → indices !!! i ≠ p) →
  foldl write acc (seq j count) !! p = acc !! p.
Proof.
  induction count as [|count IH]; intros j acc Hp; simpl; [done|].
  rewrite IH by (intros i Hi; apply Hp; lia).
  apply list_lookup_insert_ne, Hp. lia.
Qed.

Lemma scatter_from_inside i count : ∀ j acc,
  NoDup indices → j + count ≤ length indices → j ≤ i < j + count →
  indices !!! i < length acc →
  foldl write acc (seq j count) !! (indices !!! i) = Some (value i).
Proof.
  induction count as [|count IH]; intros j acc Hnd Hn Hi Hb; simpl; [lia|].
  destruct (decide (i = j)) as [->|Hne].
  - rewrite scatter_from_outside.
    + apply list_lookup_insert_eq. done.
    + intros i' Hi' Heq.
      assert (i' = j); [|lia].
      eapply (NoDup_lookup indices i' j); [done| |].
      * apply list_lookup_lookup_total_lt. lia.
      * rewrite Heq. apply list_lookup_lookup_total_lt. lia.
  - apply IH; [done|lia|lia|]. unfold scatter_write. by rewrite length_insert.
Qed.
End Scatter.

Lemma scatter_length st indices value :
  length (scatter st indices value) = length st.
Proof. apply scatter_from_length. Qed.

Lemma scatter_lookup st indices value i :
  NoDup indices → Forall (λ i, i < length st) indices → i < length indices →
  scatter st indices value !! (indices !!! i) = Some (value i).
Proof.
  intros Hnd Hin Hi. apply scatter_from_inside; [done|simpl; lia|lia|].
  apply (Forall_lookup_1 (λ i, i < length st) indices i); [exact Hin|].
  by apply list_lookup_lookup_total_lt.
Qed.

(** * The claims *)

(** C1 (as amended).  For every catalogued gate, every buffer, every index
    tuple of [2^k] pairwise distinct positions of the buffer and every
    scratch vector of length [2^k], the gate's own kernel and the generic
    matrix path on the gate's [asMatrix()] both complete and leave the same
    state buffer. *)
Theorem applyKernel_agrees_with_matrix_path g st indices scratch :
  valid_tuple g st indices → length scratch = length_ g →
  ∃ st', state_after (applyKernel g indices (Mem st scratch)) = Some st' ∧
         state_after (generic_applyKernel g indices (Mem st scratch)) = Some st' ∧
         st' = scatter st indices (row_product (asMatrix g) (amplitudes st indices)).
Proof.
  intros Hvalid Hs.
  destruct (specialized_matches_generic g st indices scratch Hvalid Hs)
    as (st' & Hown & Hgeneric).
  exists st'. split; [done|]. split; [done|].
  rewrite (generic_applyKernel_run g indices st scratch (proj1 Hvalid) Hs) in Hgeneric.
  by injection Hgeneric.
Qed.

Lemma applyKernel_agrees_with_matrix_path_witness :
  ∃ st', state_after (applyKernel HadamardGate [1; 0]
                        (Mem [1; 0]%C [0; 0]%C)) = Some st' ∧
         state_after (generic_applyKernel HadamardGate [1; 0]
                        (Mem [1; 0]%C [0; 0]%C)) = Some st' ∧
         st' = scatter [1; 0]%C [1; 0]
                 (row_product (asMatrix HadamardGate) (amplitudes [1; 0]%C [1; 0])).
Proof.
  apply (applyKernel_agrees_with_matrix_path HadamardGate [1; 0]%C [1; 0] [0; 0]%C);
    by_evaluation.
Defined.

(** C1 as stated fails when a position occurs twice in the tuple.  SWAP on
    the buffer [0, 1, 0] with the tuple [0, 1, 2, 1]: the kernel swaps
    positions 1 and 2, while in the matrix path the write of row 3 to
    position 1 overrides the write of row 1. *)
Lemma applyKernel_matrix_path_repeated_position :
  let st := [0; 1; 0]%C in
  let indices := [0; 1; 2; 1] in
  let scratch := [0; 0; 0; 0]%C in
  tuple_over SWAPGate st indices ∧
  length scratch = length_ SWAPGate ∧
  state_after (applyKernel SWAPGate indices (Mem st scratch)) = Some [0; 0; 1]%C ∧
  state_after (generic_applyKernel SWAPGate indices (Mem st scratch)) = Some [0; 1; 1]%C ∧
  [0; 0; 1]%C ≠ [0; 1; 1]%C.
Proof.
  cbv zeta. split; [by_evaluation|]. split; [done|]. split; [done|]. split.
  - rewrite generic_applyKernel_run by by_evaluation.
    unfold scatter, scatter_write, row_product, amplitudes; simpl. repeat f_equal; ring.
  - intros H. inversion H. lra.
Qed.

(** C4.  On a buffer, an index tuple of [2^k] positions of the buffer and a
    scratch vector of length [2^k], the generic kernel is its gather loop
    followed by its scatter loop: the gather loop completes, leaves the
    buffer as it is and fills [v] with the pre-call amplitudes; the scatter
    loop then runs on that memory, and what it writes for [i] is the product
    of row [i] with the pre-call amplitudes.  When the positions are
    pairwise distinct, that product is what position [indices[i]] holds in
    the end, for every [i]. *)
Theorem generic_kernel_gathers_then_scatters matrix k st indices scratch :
  length indices = 2 ^ k → length scratch = 2 ^ k →
  length matrix = 2 ^ k * 2 ^ k →
  Forall (λ i, i < length st) indices →
  let w := amplitudes st indices in
  gather indices 0 (Mem st scratch) = Done () (Mem st w) ∧
  AbstractGate_applyKernel matrix (2 ^ k) indices (Mem st scratch) =
    for_from (scatter_row matrix indices) 0 (length indices) (Mem st w) ∧
  AbstractGate_applyKernel matrix (2 ^ k) indices (Mem st scratch) =
    Done () (Mem (scatter st indices (row_product matrix w)) w) ∧
  (NoDup indices → ∀ i, i < 2 ^ k →
     scatter st indices (row_product matrix w) !! (indices !!! i)
     = Some (row_product matrix w i)).
Proof.
  intros Hi Hs Hm Hin w.
  assert (Hw : length w = length indices) by (unfold w, amplitudes; by rewrite length_fmap).
  split; [apply gather_all_run; [done|lia]|].
  rewrite AbstractGate_applyKernel_run by done. fold w.
  split; [|split; [done|]].
  - rewrite scatter_loop_run; [done|done|lia|lia|done].
  - intros Hnd i Hlt. apply scatter_lookup; [done|done|lia].
Qed.

Lemma generic_kernel_gathers_then_scatters_witness :
  let w := amplitudes [0; 1]%C [1; 0] in
  gather [1; 0] 0 (Mem [0; 1]%C [0; 0]%C) = Done () (Mem [0; 1]%C w) ∧
  AbstractGate_applyKernel (asMatrix XGate) (2 ^ 1) [1; 0] (Mem [0; 1]%C [0; 0]%C) =
    for_from (scatter_row (asMatrix XGate) [1; 0]) 0 2 (Mem [0; 1]%C w) ∧
  AbstractGate_applyKernel (asMatrix XGate) (2 ^ 1) [1; 0] (Mem [0; 1]%C [0; 0]%C) =
    Done () (Mem (scatter [0; 1]%C [1; 0] (row_product (asMatrix XGate) w)) w) ∧
  (NoDup [1; 0] → ∀ i, i < 2 ^ 1 →
     scatter [0; 1]%C [1; 0] (row_product (asMatrix XGate) w) !! ([1; 0] !!! i)
     = Some (row_product (asMatrix XGate) w i)).
Proof.
  apply (generic_kernel_gathers_then_scatters (asMatrix XGate) 1 [0; 1]%C [1; 0] [0; 0]%C);
    by_evaluation.
Defined.

(** C9.  On a tuple of [2^k] positions of the buffer (pairwise distinct or
    not) and a scratch vector of length [2^k], the kernel of every gate
    completes, keeps the length of the buffer, and leaves every position
    unchanged that is not held by one of the slots the kernel assigns to
    ([written_slots]: slot 1 for PauliZ, slot 3 for CZ, slots 6 and 7 for
    Toffoli, ...); in particular every position that is not in the tuple. *)
Theorem kernel_writes_only_its_tuple g st indices scratch :
  tuple_over g st indices → length scratch = length_ g →
  ∃ m', applyKernel g indices (Mem st scratch) = Done () m' ∧
        length (state m') = length st ∧
        (∀ p, ¬ positions_of indices (written_slots g) p → state m' !! p = st !! p) ∧
        (∀ p, p ∉ indices → state m' !! p = st !! p).
Proof.
  intros Htuple Hs.
  destruct (triple_run st (length_ g) _ _ _ scratch Hs (triple_applyKernel g st indices Htuple))
    as ([] & m' & Hrun & _ & Hlen & Hframe).
  exists m'. repeat split; [done|done|done|].
  intros p Hp. apply Hframe. intros (j & _ & Hj).
  apply Hp. by eapply list_elem_of_lookup_2.
Qed.

Lemma kernel_writes_only_its_tuple_witness :
  ∃ m', applyKernel CZGate [0; 1; 2; 3] (Mem [1; 1; 1; 1; 1]%C [0; 0; 0; 0]%C) = Done () m' ∧
        length (state m') = 5 ∧
        (∀ p, ¬ positions_of [0; 1; 2; 3] (written_slots CZGate) p →
              state m' !! p = [1; 1; 1; 1; 1]%C !! p) ∧
        (∀ p, p ∉ [0; 1; 2; 3] → state m' !! p = [1; 1; 1; 1; 1]%C !! p).
Proof.
  apply (kernel_writes_only_its_tuple CZGate [1; 1; 1; 1; 1]%C [0; 1; 2; 3] [0; 0; 0; 0]%C);
    by_evaluation.
Defined.

(** C10.  When the index tuple and the scratch vector both have length
    [2^k], [k] the arity of the gate, and every index of the tuple is a
    position of the buffer, the assertion of the generic kernel holds and
    the kernel runs to completion: no subscript of the buffer, of the
    scratch vector, of the tuple or of the matrix is out of bounds. *)
Theorem generic_kernel_stays_in_bounds g st indices scratch :
  length indices = 2 ^ numQubits g → length scratch = 2 ^ numQubits g →
  Forall (λ i, i < length st) indices →
  bool_decide (length indices = length_ g ∧ length scratch = length_ g) = true ∧
  ∃ m', generic_applyKernel g indices (Mem st scratch) = Done () m'.
Proof.
  intros Hi Hs Hin. split; [by apply bool_decide_eq_true_2|].
  eexists. by apply generic_applyKernel_run.
Qed.

Lemma generic_kernel_stays_in_bounds_witness :
  bool_decide (length [3; 3] = length_ (mkRotationXGate 0)
               ∧ length [0; 0]%C = length_ (mkRotationXGate 0)) = true ∧
  ∃ m', generic_applyKernel (mkRotationXGate 0) [3; 3]
          (Mem [0; 0; 0; 1]%C [0; 0]%C) = Done () m'.
Proof.
  apply (generic_kernel_stays_in_bounds (mkRotationXGate 0) [0; 0; 0; 1]%C [3; 3] [0; 0]%C);
    by_evaluation.
Defined.

(** ** Construction and dispatch *)

Lemma validateLength_spec {T} (errorPrefix : string) (vec : list T) n :
  (validateLength errorPrefix vec n = inl (BadParameterCount errorPrefix n (length vec))
   ↔ length vec ≠ n) ∧
  (validateLength errorPrefix vec n = inr () ↔ length vec = n).
Proof.
  unfold validateLength. destruct (decide (length vec ≠ n)) as [Hne|Heq].
  - split; split; (done || congruence).
  - assert (length vec = n) by lia. split; split; (done || congruence).
Qed.

(** Every [create] is [validateLength] on its own label and on the declared
    parameter count of the catalogue, followed by the class's constructor. *)
Lemma gateTypes_shape :
  Forall (λ gateType : string * constructor,
            ∃ n (make : list R → Gate),
              declared_params gateType.1 = Some n ∧
              ∀ parameters,
                gateType.2 parameters
                = validateLength gateType.1 parameters n ≫= λ _, mret (make parameters))
         gateTypes.
Proof.
  repeat constructor; simpl; eexists _, _; (split; [reflexivity|]); intros ps; reflexivity.
Qed.

(** A gate that [create] returns has the arity that the catalogue declares
    for its label. *)
Lemma gateTypes_arity :
  Forall (λ gateType : string * constructor,
            ∀ parameters g, gateType.2 parameters = inr g →
                            declared_arity gateType.1 = Some (numQubits g))
         gateTypes.
Proof.
  repeat constructor; simpl; intros ps g;
    match goal with |- ?create ps = _ → _ => unfold create end;
    unfold validateLength; case_decide; simpl; intros [= <-]; reflexivity.
Qed.

Lemma gateTypes_labels : gateTypes.*1 = catalogued_labels.
Proof. reflexivity. Qed.

Lemma gateTypes_NoDup : NoDup (gateTypes.*1).
Proof.
  rewrite gateTypes_labels.
  apply (bool_decide_unpack (NoDup catalogued_labels)). by vm_compute.
Qed.

Lemma lookup_addToDispatchTable gateTypes' : ∀ (table : gmap string constructor) key,
  foldl (λ dispatchTable gateType, addToDispatchTable gateType dispatchTable)
        table gateTypes' !! key
  = match table !! key with
    | Some create => Some create
    | None => (list_to_map gateTypes' : gmap string constructor) !! key
    end.
Proof.
  induction gateTypes' as [|[label create] rest IH]; intros table key; simpl.
  - rewrite lookup_empty. by destruct (table !! key).
  - rewrite IH. unfold addToDispatchTable, emplace; simpl.
    destruct (decide (label = key)) as [->|Hne].
    + rewrite lookup_insert_eq. destruct (table !! key) eqn:Hkey.
      * by rewrite Hkey.
      * by rewrite lookup_insert_eq.
    + rewrite (lookup_insert_ne (list_to_map rest)) by done.
      destruct (table !! label) eqn:Hlabel; [done|].
      by rewrite lookup_insert_ne.
Qed.

Lemma lookup_dispatchTable key :
  dispatchTable !! key = (list_to_map gateTypes : gmap string constructor) !! key.
Proof.
  unfold dispatchTable, createDispatchTable.
  by rewrite lookup_addToDispatchTable, lookup_empty.
Qed.

Opaque dispatchTable.

Lemma constructGate_registered label create parameters :
  (label, create) ∈ gateTypes → constructGate label parameters = create parameters.
Proof.
  intros Hin. unfold constructGate. rewrite lookup_dispatchTable.
  by rewrite (elem_of_list_to_map_1 gateTypes label create gateTypes_NoDup Hin).
Qed.

Lemma constructGate_unregistered label parameters :
  label ∉ catalogued_labels → constructGate label parameters = inl (UnknownGate label).
Proof.
  intros Hnot. unfold constructGate. rewrite lookup_dispatchTable.
  rewrite not_elem_of_list_to_map_1; [done|]. by rewrite gateTypes_labels.
Qed.

Lemma catalogued_registered label :
  label ∈ catalogued_labels → ∃ create, (label, create) ∈ gateTypes.
Proof.
  rewrite <- gateTypes_labels. intros Hin.
  apply list_elem_of_fmap in Hin as ([label' create] & -> & Hin). by exists create.
Qed.

Lemma registered_spec label create :
  (label, create) ∈ gateTypes →
  ∃ n make, declared_params label = Some n ∧
    ∀ parameters,
      (create parameters = inl (BadParameterCount label n (length parameters))
       ↔ length parameters ≠ n) ∧
      (create parameters = inr (make parameters) ↔ length parameters = n) ∧
      ((∃ g, create parameters = inr g) ↔ length parameters = n).
Proof.
  intros Hin.
  destruct (proj1 (Forall_forall _ _) gateTypes_shape _ Hin) as (n & make & Hn & Hcreate).
  simpl in *. exists n, make. split; [done|]. intros parameters.
  rewrite Hcreate.
  destruct (validateLength_spec label parameters n) as [Hbad Hok].
  destruct (decide (length parameters = n)) as [Heq|Hne].
  - rewrite (proj2 Hok Heq). simpl.
    repeat split; try done; try (by eexists).
  - rewrite (proj2 Hbad Hne). simpl.
    repeat split; try done; try (by intros (? & ?)).
Qed.

(** C5.  Every [create] of the catalogue fails exactly when the length of
    the parameter list differs from the declared parameter count of its
    label, and then with BadParameterCount; a gate declared with no
    parameter accepts the empty list and nothing else; and on success the
    instance holds the scalars that the class's constructor computes from
    the parameters. *)
Theorem create_checks_the_parameter_count :
  Forall (λ gateType : string * constructor,
            ∃ n, declared_params gateType.1 = Some n ∧
              ∀ parameters,
                ((∃ e, gateType.2 parameters = inl e) ↔ length parameters ≠ n) ∧
                (gateType.2 parameters
                   = inl (BadParameterCount gateType.1 n (length parameters))
                 ↔ length parameters ≠ n) ∧
                ((∃ g, gateType.2 parameters = inr g) ↔ length parameters = n) ∧
                (n = 0 → ((∃ g, gateType.2 parameters = inr g) ↔ parameters = [])))
         gateTypes ∧
  (XGate_create [] = inr XGate ∧ YGate_create [] = inr YGate ∧
   ZGate_create [] = inr ZGate ∧ HadamardGate_create [] = inr HadamardGate ∧
   SGate_create [] = inr SGate ∧ TGate_create [] = inr TGate ∧
   CNOTGate_create [] = inr CNOTGate ∧ SWAPGate_create [] = inr SWAPGate ∧
   CZGate_create [] = inr CZGate ∧ ToffoliGate_create [] = inr ToffoliGate ∧
   CSWAPGate_create [] = inr CSWAPGate) ∧
  (∀ θ, RotationXGate_create [θ]
        = inr (RotationXGate (Cplx.mk (cos (θ / 2)) 0) (Cplx.mk 0 (sin (- θ / 2))))) ∧
  (∀ θ, RotationYGate_create [θ]
        = inr (RotationYGate (Cplx.mk (cos (θ / 2)) 0) (Cplx.mk (sin (θ / 2)) 0))) ∧
  (∀ θ, RotationZGate_create [θ]
        = inr (RotationZGate (Cplx.expi (- θ / 2)) (Cplx.expi (θ / 2)))) ∧
  (∀ φ, PhaseShiftGate_create [φ] = inr (PhaseShiftGate (Cplx.expi φ))) ∧
  (∀ φ θ ω, GeneralRotationGate_create [φ; θ; ω]
        = inr (mkGeneralRotationGate φ θ ω)) ∧
  (∀ θ, CRotationXGate_create [θ]
        = inr (CRotationXGate (Cplx.mk (cos (θ / 2)) 0) (Cplx.mk 0 (sin (- θ / 2))))) ∧
  (∀ θ, CRotationYGate_create [θ]
        = inr (CRotationYGate (Cplx.mk (cos (θ / 2)) 0) (Cplx.mk (sin (θ / 2)) 0))) ∧
  (∀ θ, CRotationZGate_create [θ]
        = inr (CRotationZGate (Cplx.expi (- θ / 2)) (Cplx.expi (θ / 2)))) ∧
  (∀ φ θ ω, CGeneralRotationGate_create [φ; θ; ω]
        = inr (mkCGeneralRotationGate φ θ ω)).
Proof.
  split; [|by repeat split].
  apply Forall_forall. intros [label create] Hin.
  destruct (registered_spec label create Hin) as (n & make & Hn & Hspec).
  exists n. split; [done|]. intros parameters.
  destruct (Hspec parameters) as (Hbad & Hmake & Hok). simpl.
  split.
  { split.
    - intros [e He] Heq. apply Hok in Heq as [g Hg]. congruence.
    - intros Hne. eexists. by apply Hbad. }
  split; [exact Hbad|]. split; [exact Hok|].
  intros ->. split.
  - intros Hg. apply Hok in Hg. by apply nil_length_inv.
  - intros ->. by apply Hok.
Qed.

(** C6.  [constructGate] returns a gate instance exactly when the label is
    one of the twenty labels of the catalogue and the parameter list has the
    declared length; on a catalogued label it is that label's [create]; on
    any other label it fails with UnknownGate.  Labels are compared as they
    are written: a catalogued label in another case is unknown. *)
Theorem constructGate_recognises_the_catalogue label parameters :
  ((∃ g, constructGate label parameters = inr g)
   ↔ label ∈ catalogued_labels ∧ declared_params label = Some (length parameters)) ∧
  (label ∉ catalogued_labels → constructGate label parameters = inl (UnknownGate label)) ∧
  (label ∈ catalogued_labels → ∀ l, constructGate label parameters ≠ inl (UnknownGate l)) ∧
  (∀ create, (label, create) ∈ gateTypes → constructGate label parameters = create parameters) ∧
  constructGate "paulix" [] = inl (UnknownGate "paulix") ∧
  constructGate "PauliX" [] = inr XGate.
Proof.
  assert (Hknown : label ∈ catalogued_labels →
    ∃ create n, constructGate label parameters = create parameters ∧
      declared_params label = Some n ∧
      (create parameters = inl (BadParameterCount label n (length parameters))
       ↔ length parameters ≠ n) ∧
      ((∃ g, create parameters = inr g) ↔ length parameters = n)).
  { intros Hin. destruct (catalogued_registered label Hin) as [create Hcreate].
    destruct (registered_spec label create Hcreate) as (n & make & Hn & Hspec).
    destruct (Hspec parameters) as (Hbad & _ & Hok).
    exists create, n. by rewrite (constructGate_registered _ _ _ Hcreate). }
  split; [split|].
  - intros [g Hg].
    destruct (decide (label ∈ catalogued_labels)) as [Hin|Hnot].
    + split; [done|].
      destruct (Hknown Hin) as (create & n & Heq & Hn & _ & Hok).
      rewrite Hn. f_equal. symmetry. apply Hok. exists g. by rewrite <- Heq.
    + rewrite constructGate_unregistered in Hg by done. discriminate.
  - intros [Hin Hlen].
    destruct (Hknown Hin) as (create & n & Heq & Hn & _ & Hok).
    rewrite Heq. apply Hok. congruence.
  - split; [apply constructGate_unregistered|].
    split.
    { intros Hin l Hl.
      destruct (Hknown Hin) as (create & n & Heq & Hn & Hbad & Hok).
      rewrite Heq in Hl.
      destruct (decide (length parameters = n)) as [Hlen|Hlen].
      - apply Hok in Hlen as [g Hg]. congruence.
      - apply Hbad in Hlen. congruence. }
    split; [intros create; apply constructGate_registered|].
    split.
    + apply constructGate_unregistered. apply (bool_decide_unpack _). by vm_compute.
    + apply (constructGate_registered "PauliX" XGate_create []). constructor.
Qed.

(** ** The index generator *)

Lemma generateBitPatterns_nil N : generateBitPatterns [] N = [0].
Proof. reflexivity. Qed.

(** The first wire is consumed last: it doubles the patterns of the other
    wires. *)
Lemma generateBitPatterns_cons w ws N :
  generateBitPatterns (w :: ws) N =
  generateBitPatterns ws N
  ++ ((λ p, p + 2 ^ (N - 1 - w)) <$> generateBitPatterns ws N).
Proof.
  unfold generateBitPatterns. by rewrite reverse_cons, foldl_app.
Qed.

Lemma generateBitPatterns_length ws N :
  length (generateBitPatterns ws N) = 2 ^ length ws.
Proof.
  induction ws as [|w ws IH]; [done|].
  rewrite generateBitPatterns_cons, length_app, length_fmap, IH. simpl. lia.
Qed.

Lemma pow2_pos k : 0 < 2 ^ k.
Proof. induction k; simpl; lia. Qed.

Lemma binary_digit_small p k : p < 2 ^ k → binary_digit p k = 0.
Proof. intros Hp. unfold binary_digit. by rewrite Nat.div_small. Qed.

Lemma binary_digit_top q k : q < 2 ^ k → binary_digit (2 ^ k + q) k = 1.
Proof.
  intros Hq. unfold binary_digit.
  replace (2 ^ k + q) with (1 * 2 ^ k + q) by lia.
  rewrite Nat.div_add_l by (pose proof (pow2_pos k); lia).
  by rewrite (Nat.div_small q).
Qed.

Lemma binary_digit_low q k j :
  j < k → binary_digit (2 ^ k + q) j = binary_digit q j.
Proof.
  intros Hj. unfold binary_digit.
  replace k with (S (k - 1 - j) + j) by lia.
  rewrite Nat.pow_add_r, Nat.div_add_l by (pose proof (pow2_pos j); lia).
  replace (2 ^ S (k - 1 - j) + q `div` 2 ^ j)
    with (q `div` 2 ^ j + 2 ^ (k - 1 - j) * 2) by (simpl; lia).
  apply Nat.Div0.mod_add.
Qed.

Lemma sum_list_fmap_ext (f g : nat → nat) l :
  (∀ x, x ∈ l → f x = g x) → sum_list (f <$> l) = sum_list (g <$> l).
Proof.
  induction l as [|x l IH]; intros Hfg; csimpl; [done|].
  rewrite Hfg, IH; [done| |set_solver]. intros y Hy. apply Hfg. set_solver.
Qed.

(** The closed form of a tuple of wires, from the closed form of all but
    the first. *)
Lemma pattern_value_cons w ws N p :
  pattern_value (w :: ws) N p =
  pattern_value ws N p + binary_digit p (length ws) * 2 ^ (N - 1 - w).
Proof.
  unfold pattern_value. simpl length.
  rewrite seq_S, fmap_app, sum_list_with_app. simpl.
  replace (length ws - 0 - length ws) with 0 by lia. simpl.
  rewrite Nat.add_0_r. f_equal.
  apply sum_list_fmap_ext. intros j Hj. apply elem_of_seq in Hj.
  replace (length ws - 0 - j) with (S (length ws - 1 - j)) by lia. done.
Qed.

Lemma pattern_value_low ws N q k :
  length ws ≤ k → pattern_value ws N (2 ^ k + q) = pattern_value ws N q.
Proof.
  intros Hk. unfold pattern_value. apply sum_list_fmap_ext. intros j Hj.
  apply elem_of_seq in Hj. by rewrite binary_digit_low by lia.
Qed.

Lemma generateBitPatterns_lookup ws N : ∀ p,
  p < 2 ^ length ws →
  generateBitPatterns ws N !! p = Some (pattern_value ws N p).
Proof.
  induction ws as [|w ws IH]; intros p Hp.
  - simpl in Hp. by replace p with 0 by lia.
  - rewrite generateBitPatterns_cons, pattern_value_cons.
    simpl in Hp. destruct (decide (p < 2 ^ length ws)) as [Hlow|Hhigh].
    + rewrite lookup_app_l by (by rewrite generateBitPatterns_length).
      rewrite IH, binary_digit_small by done. f_equal. lia.
    + rewrite lookup_app_r by (rewrite generateBitPatterns_length; lia).
      rewrite generateBitPatterns_length, list_lookup_fmap.
      replace p with (2 ^ length ws + (p - 2 ^ length ws)) at 2 3 by lia.
      rewrite IH, pattern_value_low, binary_digit_top by lia.
      simpl. f_equal. lia.
Qed.

(** C3.  For wires below [N], [generateBitPatterns] returns [2^k] offsets,
    the [p]-th of which is the closed form of the spec, the sum over the
    binary digits [b_j] of [p] of [b_j * 2^(N-1-wires[k-1-j])]; for [N = 5]
    the wires [0, 1] give [0, 8, 16, 24], the wires [1, 0] give
    [0, 16, 8, 24] and the wire [2] gives [0, 4]. *)
Theorem generateBitPatterns_closed_form wires N :
  Forall (λ w, w < N) wires →
  length (generateBitPatterns wires N) = 2 ^ length wires ∧
  (∀ p, p < 2 ^ length wires →
        generateBitPatterns wires N !! p = Some (pattern_value wires N p)) ∧
  generateBitPatterns [0; 1] 5 = [0; 8; 16; 24] ∧
  generateBitPatterns [1; 0] 5 = [0; 16; 8; 24] ∧
  generateBitPatterns [2] 5 = [0; 4].
Proof.
  intros _. split; [apply generateBitPatterns_length|].
  split; [apply generateBitPatterns_lookup|]. by repeat split.
Qed.

Lemma generateBitPatterns_closed_form_witness :
  length (generateBitPatterns [2; 0] 3) = 2 ^ length [2; 0] ∧
  (∀ p, p < 2 ^ length [2; 0] →
        generateBitPatterns [2; 0] 3 !! p = Some (pattern_value [2; 0] 3 p)) ∧
  generateBitPatterns [0; 1] 5 = [0; 8; 16; 24] ∧
  generateBitPatterns [1; 0] 5 = [0; 16; 8; 24] ∧
  generateBitPatterns [2] 5 = [0; 4].
Proof.
  apply (generateBitPatterns_closed_form [2; 0] 3). by_evaluation.
Defined.

(** *** The decomposition of the index space *)

Lemma generateBitPatterns_Permutation ws ws' N :
  ws ≡ₚ ws' → generateBitPatterns ws N ≡ₚ generateBitPatterns ws' N.
Proof.
  induction 1 as [|w ws ws' _ IH|w w' ws|ws ws' ws'' _ IH _ IH'].
  - done.
  - rewrite !generateBitPatterns_cons. by rewrite IH.
  - rewrite !generateBitPatterns_cons, !fmap_app, <- !list_fmap_compose.
    rewrite <- !app_assoc. apply Permutation_app_head.
    rewrite !app_assoc. apply Permutation_app.
    + apply Permutation_app_comm.
    + apply reflexive_eq, list_fmap_ext. intros _ p _. simpl. lia.
  - by rewrite IH.
Qed.

Lemma generateBitPatterns_seq N : ∀ m a,
  a + m = N → generateBitPatterns (seq a m) N = seq 0 (2 ^ m).
Proof.
  induction m as [|m IH]; intros a Ha; [done|].
  simpl seq. rewrite generateBitPatterns_cons, IH by lia.
  replace (N - 1 - a) with m by lia.
  rewrite (list_fmap_ext _ (Nat.add (2 ^ m)) (seq 0 (2 ^ m)))
    by (intros; simpl; lia).
  rewrite fmap_add_seq, Nat.add_0_r, <- seq_app. simpl; f_equal; lia.
Qed.

Lemma offsets_shift (K P : list nat) v :
  ((λ p, p + v) <$> P) ≫= (λ c, index_tuple c K)
  = (λ p, p + v) <$> (P ≫= λ c, index_tuple c K).
Proof.
  induction P as [|c P IH]; [done|].
  rewrite fmap_cons, !bind_cons, fmap_app, IH. f_equal.
  unfold index_tuple. rewrite <- list_fmap_compose.
  apply list_fmap_ext. intros _ k _. simpl. lia.
Qed.

(** Adding every pattern of some wires to every pattern of other wires
    gives the patterns of all of them. *)
Lemma offsets_combine ws' ws N :
  generateBitPatterns ws' N ≫= (λ c, index_tuple c (generateBitPatterns ws N))
  ≡ₚ generateBitPatterns (ws' ++ ws) N.
Proof.
  induction ws' as [|w ws' IH].
  - change ([] ++ ws) with ws.
    rewrite generateBitPatterns_nil, bind_singleton. unfold index_tuple.
    rewrite (list_fmap_ext _ Datatypes.id (generateBitPatterns ws N)) by done.
    by rewrite list_fmap_id.
  - rewrite <- app_comm_cons, !generateBitPatterns_cons, bind_app, offsets_shift.
    by rewrite IH.
Qed.

Lemma getIndicesExcluding_Some excluded N :
  Forall (λ i, i < N) excluded →
  getIndicesExcluding excluded N = Some (filter (λ i, i ∉ excluded) (seq 0 N)).
Proof. intros H. unfold getIndicesExcluding. by rewrite bool_decide_eq_true_2. Qed.

Lemma complement_Permutation wires N :
  NoDup wires → Forall (λ w, w < N) wires →
  filter (λ i, i ∉ wires) (seq 0 N) ++ wires ≡ₚ seq 0 N.
Proof.
  intros Hnd Hin. apply NoDup_Permutation.
  - apply NoDup_app. split; [apply NoDup_filter, NoDup_seq|]. split; [|done].
    intros x Hx. by apply list_elem_of_filter in Hx as [? _].
  - apply NoDup_seq.
  - intros x. rewrite elem_of_app, list_elem_of_filter, elem_of_seq. split.
    + intros [[_ ?]|Hx]; [lia|].
      pose proof (proj1 (Forall_forall _ _) Hin x Hx). simpl in *. lia.
    + intros Hx. destruct (decide (x ∈ wires)); [by right|left]. split; [done|lia].
Qed.

Lemma complement_offsets_cover wires N :
  NoDup wires → Forall (λ w, w < N) wires →
  ∃ complementWires,
    getIndicesExcluding wires N = Some complementWires ∧
    (generateBitPatterns complementWires N
       ≫= λ c, index_tuple c (generateBitPatterns wires N)) ≡ₚ seq 0 (2 ^ N).
Proof.
  intros Hnd Hin. eexists. split; [by apply getIndicesExcluding_Some|].
  rewrite offsets_combine.
  rewrite (generateBitPatterns_Permutation _ _ N (complement_Permutation wires N Hnd Hin)).
  by rewrite generateBitPatterns_seq.
Qed.

(** C2.  For distinct wires below [N], the complement wires exist, and the
    sums [c + K[i]], over the complement offsets [c] and the kernel offsets
    [K[i]], are the indices [0, 1, ..., 2^N - 1], each exactly once. *)
Theorem offsets_cover_every_index_once wires N :
  NoDup wires → Forall (λ w, w < N) wires →
  ∃ complementWires,
    getIndicesExcluding wires N = Some complementWires ∧
    let K := generateBitPatterns wires N in
    let C := generateBitPatterns complementWires N in
    length K = 2 ^ length wires ∧
    (C ≫= λ c, index_tuple c K) ≡ₚ seq 0 (2 ^ N).
Proof.
  intros Hnd Hin.
  destruct (complement_offsets_cover wires N Hnd Hin)
    as (complementWires & Hcomplement & Hcover).
  exists complementWires. split; [done|].
  split; [apply generateBitPatterns_length|done].
Qed.

Lemma offsets_cover_every_index_once_witness :
  ∃ complementWires,
    getIndicesExcluding [2; 0] 3 = Some complementWires ∧
    let K := generateBitPatterns [2; 0] 3 in
    let C := generateBitPatterns complementWires 3 in
    length K = 2 ^ length [2; 0] ∧
    (C ≫= λ c, index_tuple c K) ≡ₚ seq 0 (2 ^ 3).
Proof.
  apply (offsets_cover_every_index_once [2; 0] 3); by_evaluation.
Defined.

(** ** The driver *)

Lemma applyKernel_completes g indices m :
  tuple_over g (state m) indices → length (v m) = length_ g →
  ∃ m', applyKernel g indices m = Done () m' ∧
        length (state m') = length (state m) ∧ length (v m') = length_ g.
Proof.
  intros Htuple Hv.
  destruct (triple_applyKernel g (state m) indices Htuple m)
    as ([] & m' & Hrun & _ & Hlen & Hv' & _); [by repeat split|].
  by exists m'.
Qed.

Lemma applyToOffsets_completes gate K : ∀ C m,
  length K = length_ gate →
  Forall (λ c, Forall (λ i, i < length (state m)) (index_tuple c K)) C →
  length (v m) = length_ gate →
  ∃ m', applyToOffsets gate K C m = Done () m' ∧
        length (state m') = length (state m).
Proof.
  induction C as [|c C IH]; intros m HK Hin Hv; simpl.
  - by exists m.
  - apply Forall_cons in Hin as [Hc HC].
    destruct (applyKernel_completes gate (index_tuple c K) m) as (m1 & Hrun & Hlen & Hv1).
    { split; [|done]. unfold index_tuple. by rewrite length_fmap. }
    { done. }
    destruct (IH m1 HK) as (m' & Hrun' & Hlen'); [by rewrite Hlen|done|].
    exists m'. rewrite run_bind, Hrun. split; [done|congruence].
Qed.

(** An operation that aborts leaves the buffer as it found it. *)
Lemma constructAndApplyOperation_Aborted st op N st' e :
  constructAndApplyOperation st op N = Aborted st' e → st' = st.
Proof.
  unfold constructAndApplyOperation. intros H.
  repeat match type of H with
  | match ?x with _ => _ end = _ => destruct x
  | (if ?b then _ else _) = _ => destruct b
  end; congruence.
Qed.

(** On a buffer of length [2^N], an operation completes or aborts: no
    kernel faults. *)
Lemma constructAndApplyOperation_defined st op N :
  length st = 2 ^ N →
  (∃ st', constructAndApplyOperation st op N = Finished st' ∧ length st' = length st)
  ∨ (∃ e, constructAndApplyOperation st op N = Aborted st e).
Proof.
  intros Hst. unfold constructAndApplyOperation.
  destruct (constructGate _ _) as [e|gate]; [right; by eexists|].
  case_bool_decide as Hcount; [right; by eexists|].
  case_bool_decide as Hrange; [right; by eexists|].
  case_bool_decide as Hdup; [right; by eexists|].
  assert (Hk : length (opWires op) = numQubits gate) by lia.
  destruct (complement_offsets_cover (opWires op) N Hdup Hrange)
    as (complementWires & -> & Hcover).
  left.
  destruct (applyToOffsets_completes gate (generateBitPatterns (opWires op) N)
              (generateBitPatterns complementWires N)
              (Mem st (replicate (length_ gate) 0%C)))
    as (m' & -> & Hlen); simpl.
  - rewrite generateBitPatterns_length. unfold length_. by rewrite Hk.
  - apply Forall_forall. intros c Hc. apply Forall_forall. intros i Hi.
    assert (Hin : i ∈ seq 0 (2 ^ N)).
    { rewrite <- Hcover. apply list_elem_of_bind. by exists c. }
    apply elem_of_seq in Hin. lia.
  - apply length_replicate.
  - by eexists.
Qed.

Lemma applyOperations_app st preceding later N :
  applyOperations st (preceding ++ later) N =
  match applyOperations st preceding N with
  | Finished st' => applyOperations st' later N
  | stopped => stopped
  end.
Proof.
  revert st. induction preceding as [|op preceding IH]; intros st.
  - done.
  - rewrite <- app_comm_cons. cbn [applyOperations].
    by destruct (constructAndApplyOperation st op N).
Qed.

Lemma applyOperations_Aborted N ops : ∀ st st' e,
  applyOperations st ops N = Aborted st' e →
  ∃ preceding failing later,
    ops = preceding ++ failing :: later ∧
    applyOperations st preceding N = Finished st' ∧
    constructAndApplyOperation st' failing N = Aborted st' e.
Proof.
  induction ops as [|op ops IH]; intros st st' e H; cbn [applyOperations] in H; [done|].
  destruct (constructAndApplyOperation st op N) as [st1|st1 e1|f] eqn:Hop.
  - destruct (IH st1 st' e H) as (preceding & failing & later & -> & Hpre & Hfail).
    exists (op :: preceding), failing, later. cbn [applyOperations]. rewrite Hop.
    split; [done|]. split; assumption.
  - injection H as -> ->.
    pose proof (constructAndApplyOperation_Aborted _ _ _ _ _ Hop) as ->.
    exists [], op, ops. split; [done|]. split; [reflexivity|assumption].
  - done.
Qed.

(** C8.  An apply call aborts with an error, leaving the buffer [st'],
    exactly when either the buffer has not the length [2^N] (and then it is
    left as it was), or the operations split into those preceding a failing
    one, which were applied completely and produced [st'], the failing one,
    whose validation fails on [st'], and the later ones; and an operation
    whose validation fails leaves the buffer as it found it.  On a buffer
    of length [2^N] an apply call completes or aborts on a validation
    failure: no kernel faults. *)
Theorem apply_aborts_after_the_preceding_operations st ops N :
  (∀ st' e,
     apply st ops N = Aborted st' e ↔
     (length st ≠ 2 ^ N ∧ st' = st ∧ e = BadBufferLength) ∨
     (length st = 2 ^ N ∧
      ∃ preceding failing later,
        ops = preceding ++ failing :: later ∧
        applyOperations st preceding N = Finished st' ∧
        ∃ st'', constructAndApplyOperation st' failing N = Aborted st'' e)) ∧
  (∀ op st' e, constructAndApplyOperation st op N = Aborted st' e → st' = st) ∧
  (∀ f, apply st ops N ≠ Undefined f).
Proof.
  split; [|split].
  - intros st' e. unfold apply. case_bool_decide as Hlen.
    + split.
      * intros [= <- <-]. by left.
      * intros [(_ & -> & ->)|(Hst & _)]; [done|congruence].
    + assert (Hst : length st = 2 ^ N).
      { lia. }
      split.
      * intros H. right. split; [done|].
        destruct (applyOperations_Aborted N ops st st' e H)
          as (preceding & failing & later & ? & ? & ?).
        exists preceding, failing, later. eauto.
      * intros [(Hne & _)|(_ & preceding & failing & later & -> & Hpre & st'' & Hfail)];
          [done|].
        rewrite applyOperations_app, Hpre. cbn [applyOperations]. rewrite Hfail.
        by rewrite (constructAndApplyOperation_Aborted _ _ _ _ _ Hfail).
  - intros op. apply constructAndApplyOperation_Aborted.
  - intros f. unfold apply. case_bool_decide as Hlen; [done|].
    assert (Hst : length st = 2 ^ N).
    { lia. }
    clear Hlen. revert st Hst.
    induction ops as [|op ops IH]; intros st Hst; cbn [applyOperations]; [done|].
    destruct (constructAndApplyOperation_defined st op N Hst)
      as [(st1 & -> & Hlen1)|(e & ->)]; [|done].
    apply IH. congruence.
Qed.

Example apply_stops_at_the_unknown_gate :
  apply [1; 0]%C
        [ Operation "PauliX" [0] []; Operation "Foo" [0] [];
          Operation "PauliX" [0] [] ] 1
  = Aborted [0; 1]%C (UnknownGate "Foo").
Proof. by vm_compute. Qed.

(** * Further properties of the gates, of their kernels and of the factory *)

(** ** The instances that the factory returns *)

Lemma gateTypes_constructible :
  Forall (λ gateType : string * constructor,
            ∀ parameters g, gateType.2 parameters = inr g → constructible g)
         gateTypes.
Proof.
  repeat constructor; simpl; intros ps g;
    match goal with |- ?create ps = _ → _ => unfold create end;
    unfold validateLength; case_decide; simpl; intros [= <-]; simpl; eauto.
Qed.

Lemma constructGate_constructible label parameters g :
  constructGate label parameters = inr g → constructible g.
Proof.
  intros Hg.
  destruct (decide (label ∈ catalogued_labels)) as [Hin|Hnot].
  - destruct (catalogued_registered label Hin) as [create Hcreate].
    rewrite (constructGate_registered _ _ _ Hcreate) in Hg.
    by apply (proj1 (Forall_forall _ _) gateTypes_constructible _ Hcreate parameters g).
  - rewrite constructGate_unregistered in Hg by done. discriminate.
Qed.

Lemma gateTypes_label_of :
  Forall (λ gateType : string * constructor,
            ∀ parameters g, gateType.2 parameters = inr g → label_of g = gateType.1)
         gateTypes.
Proof.
  repeat constructor; simpl; intros ps g;
    match goal with |- ?create ps = _ → _ => unfold create end;
    unfold validateLength; case_decide; simpl; intros [= <-]; reflexivity.
Qed.

(** The class of every instance is registered under its own label, and its
    [create] builds the instance from the angles of its constructor. *)
Lemma label_of_registered g :
  ∃ create, (label_of g, create) ∈ gateTypes ∧
            (constructible g → ∃ parameters, create parameters = inr g).
Proof.
  destruct g; simpl; eexists; (split; [unfold gateTypes; by repeat constructor|]);
    intros Hg;
    repeat match goal with H : ∃ _, _ |- _ => destruct H as [? H] end;
    try rewrite Hg.
  all: try (by exists []).
  all: try (by eexists [_]).
  all: by eexists [_; _; _].
Qed.

(** X1.  What [constructGate] can return: for a label and a gate instance,
    some parameter list makes [constructGate] return that instance under
    that label exactly when the label is the static [label] of the
    instance's class and the instance is one that the class's constructor
    builds (for a parametrised gate: its scalars are those computed from
    some angles).  So every class is reachable under its own label, none is
    shadowed by an earlier [emplace], and no label yields an instance of
    another class. *)
Theorem constructGate_image label g :
  (∃ parameters, constructGate label parameters = inr g)
  ↔ constructible g ∧ label_of g = label.
Proof.
  split.
  - intros [parameters Hg]. split; [by eapply constructGate_constructible|].
    destruct (decide (label ∈ catalogued_labels)) as [Hin|Hnot].
    + destruct (catalogued_registered label Hin) as [create Hcreate].
      rewrite (constructGate_registered _ _ _ Hcreate) in Hg.
      by apply (proj1 (Forall_forall _ _) gateTypes_label_of _ Hcreate parameters g).
    + rewrite constructGate_unregistered in Hg by done. discriminate.
  - intros [Hg <-]. destruct (label_of_registered g) as (create & Hin & Hmake).
    destruct (Hmake Hg) as [parameters Hcreate]. exists parameters.
    by rewrite (constructGate_registered _ _ _ Hin).
Qed.

(** ** Unitarity *)

(** Trigonometry of the half angles. *)
Ltac half_angles :=
  repeat match goal with
  | |- context [ (- ?t / 2)%R ] =>
      replace (- t / 2)%R with (- (t / 2))%R by lra
  | |- context [ ((- ?a - ?b) / 2)%R ] =>
      replace ((- a - b) / 2)%R with (- (a / 2) - b / 2)%R by lra
  | |- context [ ((?a - ?b) / 2)%R ] =>
      replace ((a - b) / 2)%R with (a / 2 - b / 2)%R by lra
  | |- context [ ((- ?a + ?b) / 2)%R ] =>
      replace ((- a + b) / 2)%R with (- (a / 2) + b / 2)%R by lra
  | |- context [ ((?a + ?b) / 2)%R ] =>
      replace ((a + b) / 2)%R with (a / 2 + b / 2)%R by lra
  end;
  repeat (progress rewrite ?cos_plus, ?sin_plus, ?cos_minus, ?sin_minus,
                           ?cos_neg, ?sin_neg).

(** Replace the cosine and the sine of every angle by two variables bound
    by [sin² + cos² = 1]. *)
Ltac name_trig :=
  repeat match goal with
  | |- context [ cos ?t ] =>
      let c := fresh "c" in let s := fresh "s" in let H := fresh "H" in
      pose proof (sin2_cos2 t) as H; unfold Rsqr in H;
      generalize dependent (cos t); intros c;
      generalize dependent (sin t); intros s; intros
  | |- context [ sin ?t ] =>
      let c := fresh "c" in let s := fresh "s" in let H := fresh "H" in
      pose proof (sin2_cos2 t) as H; unfold Rsqr in H;
      generalize dependent (sin t); intros s;
      generalize dependent (cos t); intros c; intros
  end.

Ltac real_parts :=
  cbv [Cplx.add Cplx.mul Cplx.sub Cplx.opp Cplx.zero Cplx.one Cplx.mk Cplx.expi
       conj IMAG SQRT2INV TGate_shift M_PI fst snd].

Lemma inv_sqrt2_sq : (/ sqrt 2 * / sqrt 2 = / 2)%R.
Proof. rewrite <- Rinv_mult, sqrt_sqrt by lra. reflexivity. Qed.

Ltac name_inv_sqrt2 :=
  try match goal with
  | |- context [ (/ sqrt 2)%R ] =>
      let x := fresh "x" in let H := fresh "H" in
      assert (H : (2 * (/ sqrt 2 * / sqrt 2) = 1)%R) by (rewrite inv_sqrt2_sq; lra);
      generalize dependent (/ sqrt 2)%R; intros x; intros
  end.

Ltac each_below i :=
  repeat (destruct i as [|i]; [|try lia]); try lia.

Ltac real_identity :=
  real_parts; half_angles; name_trig; name_inv_sqrt2; f_equal; nsatz.

Ltac unfold_constructors H :=
  cbv [mkRotationXGate mkRotationYGate mkRotationZGate mkPhaseShiftGate
       mkGeneralRotationGate mkCRotationXGate mkCRotationYGate
       mkCRotationZGate mkCGeneralRotationGate] in H.

Lemma constructible_unitary g : constructible g → unitary (asMatrix g) (length_ g).
Proof.
  intros Hg i j Hi Hj. cbv [length_] in Hi, Hj.
  destruct g; simpl in Hg, Hi, Hj;
    repeat match goal with H : ∃ _, _ |- _ => destruct H as [? H] end;
    unfold_constructors Hg; simplify_eq;
    each_below i; each_below j; unfold row_dot_conj; simpl; real_identity.
Qed.

(** X2.  The matrix of every gate that [constructGate] returns is unitary:
    the product of its row [i] with the conjugate of its row [j] is 1 when
    [i = j] and 0 otherwise, in exact arithmetic. *)
Theorem constructed_matrix_unitary label parameters g :
  constructGate label parameters = inr g → unitary (asMatrix g) (length_ g).
Proof.
  intros Hg. by apply constructible_unitary, (constructGate_constructible label parameters).
Qed.

Lemma constructed_matrix_unitary_witness :
  unitary (asMatrix HadamardGate) (length_ HadamardGate).
Proof.
  apply (constructed_matrix_unitary "Hadamard" [] HadamardGate). by vm_compute.
Defined.

(** ** The kernels in matrix form *)

Lemma applyKernel_matrix_form g st indices scratch :
  valid_tuple g st indices → length scratch = length_ g →
  state_after (applyKernel g indices (Mem st scratch))
  = Some (matrix_applied g st indices).
Proof.
  intros Hvalid Hs.
  destruct (specialized_matches_generic g st indices scratch Hvalid Hs)
    as (st' & Hown & Hgeneric).
  rewrite (generic_applyKernel_run g indices st scratch (proj1 Hvalid) Hs) in Hgeneric.
  simpl in Hgeneric. by simplify_eq.
Qed.

Lemma applyKernel_run g indices st scratch :
  valid_tuple g st indices → length scratch = length_ g →
  ∃ w, applyKernel g indices (Mem st scratch)
       = Done () (Mem (matrix_applied g st indices) w) ∧ length w = length_ g.
Proof.
  intros Hvalid Hs.
  destruct (applyKernel_completes g indices (Mem st scratch) (proj1 Hvalid) Hs)
    as ([st' w] & Hrun & _ & Hw).
  pose proof (applyKernel_matrix_form g st indices scratch Hvalid Hs) as Hform.
  rewrite Hrun in Hform. simpl in Hform, Hw. simplify_eq. by exists w.
Qed.

Lemma matrix_applied_length g st indices :
  length (matrix_applied g st indices) = length st.
Proof. apply scatter_length. Qed.

Lemma valid_tuple_after g g' st indices :
  length_ g' = length_ g → valid_tuple g st indices →
  valid_tuple g' (matrix_applied g st indices) indices.
Proof.
  intros Hlen [[? ?] ?]. repeat split; [congruence| |done].
  by rewrite matrix_applied_length.
Qed.

Lemma scatter_lookup_outside st indices value p :
  p ∉ indices → scatter st indices value !! p = st !! p.
Proof.
  intros Hp. apply scatter_from_outside. intros i Hi <-.
  apply Hp. apply list_elem_of_lookup_total_2. lia.
Qed.

Lemma scatter_lookup_at st indices value i p :
  NoDup indices → Forall (λ i, i < length st) indices → indices !! i = Some p →
  scatter st indices value !! p = Some (value i).
Proof.
  intros Hnd Hin Hi. pose proof (lookup_lt_Some _ _ _ Hi) as Hlt.
  rewrite <- (list_lookup_total_correct _ _ _ Hi). by apply scatter_lookup.
Qed.

Lemma amplitudes_outside st indices value other :
  (∀ p, p ∈ other → p ∉ indices) →
  amplitudes (scatter st indices value) other = amplitudes st other.
Proof.
  intros Hdisjoint. unfold amplitudes. apply list_fmap_ext. intros i p Hp.
  rewrite !list_lookup_total_alt, scatter_lookup_outside; [done|].
  apply Hdisjoint. by eapply list_elem_of_lookup_2.
Qed.

Lemma amplitudes_length st indices : length (amplitudes st indices) = length indices.
Proof. unfold amplitudes. by rewrite length_fmap. Qed.

Lemma amplitudes_lookup_total st indices j :
  j < length indices → amplitudes st indices !!! j = st !!! (indices !!! j).
Proof.
  intros Hj. apply list_lookup_total_correct. unfold amplitudes.
  rewrite list_lookup_fmap, (list_lookup_lookup_total_lt indices j Hj). done.
Qed.

(** Concrete side conditions of the examples. *)
Ltac tuple_by_hand :=
  unfold valid_tuple, tuple_over;
  split;
    [ split; [reflexivity | repeat constructor; simpl; lia]
    | apply (bool_decide_unpack _); vm_compute; exact I ].

Ltac disjoint_by_hand :=
  let p := fresh "p" in let Hp := fresh "Hp" in let Hq := fresh "Hq" in
  intros p Hp Hq;
  repeat match goal with
  | H : _ ∈ _ :: _ |- _ => apply elem_of_cons in H as [?|H]
  | H : _ ∈ [] |- _ => by apply elem_of_nil in H
  end; lia.

(** ** Commutation *)

Lemma scatter_commute st A B fA fB :
  NoDup A → NoDup B → (∀ p, p ∈ A → p ∉ B) →
  Forall (λ i, i < length st) A → Forall (λ i, i < length st) B →
  scatter (scatter st A fA) B fB = scatter (scatter st B fB) A fA.
Proof.
  intros HndA HndB Hdisjoint HinA HinB. apply list_eq. intros p.
  destruct (decide (p ∈ B)) as [HpB|HpB]; [|destruct (decide (p ∈ A)) as [HpA|HpA]].
  - assert (HpA : p ∉ A) by (intros HpA; by apply (Hdisjoint p)).
    apply list_elem_of_lookup in HpB as [i Hi].
    rewrite (scatter_lookup_outside _ A) by done.
    rewrite (scatter_lookup_at st B fB i p) by done.
    apply scatter_lookup_at; [done|by rewrite scatter_length|done].
  - apply list_elem_of_lookup in HpA as [i Hi].
    rewrite (scatter_lookup_outside _ B) by done.
    rewrite (scatter_lookup_at st A fA i p) by done.
    symmetry. apply scatter_lookup_at; [done|by rewrite scatter_length|done].
  - by rewrite !scatter_lookup_outside.
Qed.

(** X3.  Kernels on disjoint index tuples commute: for two gates, a buffer
    and a valid index tuple for each gate such that no position lies in
    both tuples, the kernel of the first gate followed by the kernel of the
    second, and the two kernels in the other order, all complete and leave
    the same buffer, whatever the contents of the scratch vectors (of the
    gates' lengths). *)
Theorem kernels_on_disjoint_tuples_commute g1 g2 st A B :
  valid_tuple g1 st A → valid_tuple g2 st B → (∀ p, p ∈ A → p ∉ B) →
  ∃ stA stB final,
    ∀ w1 w2 w3 w4,
      length w1 = length_ g1 → length w2 = length_ g2 →
      length w3 = length_ g2 → length w4 = length_ g1 →
      buffer_after g1 A st w1 = Some stA ∧ buffer_after g2 B stA w2 = Some final ∧
      buffer_after g2 B st w3 = Some stB ∧ buffer_after g1 A stB w4 = Some final.
Proof.
  intros [[HlenA HinA] HndA] [[HlenB HinB] HndB] Hdisjoint.
  assert (Hdisjoint2 : ∀ p, p ∈ B → p ∉ A).
  { intros p HpB HpA. by apply (Hdisjoint p). }
  exists (matrix_applied g1 st A), (matrix_applied g2 st B),
         (matrix_applied g2 (matrix_applied g1 st A) B).
  intros w1 w2 w3 w4 H1 H2 H3 H4. unfold buffer_after.
  rewrite !applyKernel_matrix_form;
    repeat split; rewrite ?matrix_applied_length; try done.
  f_equal. unfold matrix_applied.
  rewrite !amplitudes_outside by done.
  symmetry. by apply scatter_commute.
Qed.

Lemma kernels_on_disjoint_tuples_commute_witness :
  ∃ stA stB final,
    ∀ w1 w2 w3 w4,
      length w1 = length_ HadamardGate → length w2 = length_ XGate →
      length w3 = length_ XGate → length w4 = length_ HadamardGate →
      buffer_after HadamardGate [0; 1] [1; 0; 0; 0]%C w1 = Some stA ∧
      buffer_after XGate [2; 3] stA w2 = Some final ∧
      buffer_after XGate [2; 3] [1; 0; 0; 0]%C w3 = Some stB ∧
      buffer_after HadamardGate [0; 1] stB w4 = Some final.
Proof.
  apply (kernels_on_disjoint_tuples_commute HadamardGate XGate [1; 0; 0; 0]%C
           [0; 1] [2; 3]); [tuple_by_hand|tuple_by_hand|disjoint_by_hand].
Defined.

(** ** The norm *)

Lemma norm2_insert st : ∀ i a x,
  st !! i = Some a → norm2 (<[i:=x]> st) = (norm2 st - abs2 a + abs2 x)%R.
Proof.
  induction st as [|b st IH]; intros i a x Hi; [done|].
  destruct i as [|i]; simpl in *.
  - simplify_eq. lra.
  - rewrite (IH i a x Hi). lra.
Qed.

Ltac norm_of_writes :=
  repeat match goal with
  | |- context [ norm2 (<[?i:=?x]> ?l) ] =>
      erewrite (norm2_insert l i _ x) by (read_through; reflexivity)
  end.

Ltac split_amplitudes :=
  repeat match goal with a : CplxType |- _ => destruct a end.

Lemma constructible_norm g st indices :
  constructible g → valid_tuple g st indices →
  norm2 (matrix_applied g st indices) = norm2 st.
Proof.
  intros Hg [[Hlen Hin] Hnd]. cbv [length_] in Hlen.
  destruct g; simpl in Hg, Hlen;
    repeat match goal with H : ∃ _, _ |- _ => destruct H as [? H] end;
    unfold_constructors Hg; simplify_eq;
    explode_tuple indices;
    unfold matrix_applied, scatter, scatter_write, row_product, amplitudes; simpl;
    name_amplitudes st; distinct_positions;
    norm_of_writes; split_amplitudes; unfold abs2;
    real_parts; half_angles; name_trig; name_inv_sqrt2; nsatz.
Qed.

(** X4.  In exact complex arithmetic (amplitudes as pairs of real numbers,
    the scalars of the gates exact; the doubles of the code follow it up to
    round-off only), the kernel of every gate that [constructGate] returns
    preserves the squared norm of the buffer (the sum of the squared moduli
    of its amplitudes): on a valid index tuple and a scratch vector of the
    gate's length the kernel completes, and the buffer it leaves has the
    norm of the buffer it found. *)
Theorem constructed_kernel_preserves_norm label parameters g st indices scratch :
  constructGate label parameters = inr g →
  valid_tuple g st indices → length scratch = length_ g →
  ∃ final, buffer_after g indices st scratch = Some final ∧ norm2 final = norm2 st.
Proof.
  intros Hg Hvalid Hs. exists (matrix_applied g st indices).
  split; [by apply applyKernel_matrix_form|].
  apply constructible_norm; [|done].
  by apply (constructGate_constructible label parameters).
Qed.

Lemma constructed_kernel_preserves_norm_witness :
  ∃ final, buffer_after HadamardGate [2; 0] [1; 0; 0]%C [0; 0]%C = Some final ∧
           norm2 final = norm2 [1; 0; 0]%C.
Proof.
  apply (constructed_kernel_preserves_norm "Hadamard" [] HadamardGate
           [1; 0; 0]%C [2; 0] [0; 0]%C);
    [by vm_compute|tuple_by_hand|reflexivity].
Defined.

(** ** Rotations *)

Ltac total_lookups :=
  repeat first
    [ rewrite list_lookup_total_insert_eq by side
    | rewrite list_lookup_total_insert_ne by differ ].

Ltac real_closer := split_amplitudes; real_parts; half_angles; name_trig; f_equal; nsatz.

(** Two or three matrix applications on one tuple against one buffer. *)
Ltac compare_applications Hlen indices st :=
  simpl in Hlen; explode_tuple indices;
  unfold matrix_applied, scatter, scatter_write, row_product, amplitudes; simpl;
  name_amplitudes st; distinct_positions; total_lookups;
  compare_buffers ltac:(real_closer).

Lemma undoes_matrix_applied g g' st indices :
  undoes g g' → valid_tuple g st indices →
  matrix_applied g' (matrix_applied g st indices) indices = st.
Proof.
  intros Hundo [[Hlen Hin] Hnd]. cbv [length_] in Hlen.
  destruct Hundo; compare_applications Hlen indices st.
Qed.

Lemma undoes_length g g' : undoes g g' → length_ g' = length_ g.
Proof. by destruct 1. Qed.

(** X5.  In exact complex arithmetic (cosine, sine and the complex
    exponential exact; the doubles of the code follow it up to round-off
    only), a rotation is undone by the rotation of the same class on the
    negated angle, and a general rotation [Rot(phi, theta, omega)] (and its
    controlled form) by [Rot(-omega, -theta, -phi)]: on a valid index tuple
    the kernel of the first gate and then the kernel of the second complete
    and leave the buffer as it was.  This holds for RX, RY, RZ, PhaseShift,
    Rot, CRX, CRY, CRZ and CRot. *)
Theorem rotation_then_inverse g g' st indices w w' :
  undoes g g' → valid_tuple g st indices →
  length w = length_ g → length w' = length_ g →
  ∃ mid, buffer_after g indices st w = Some mid ∧
         buffer_after g' indices mid w' = Some st.
Proof.
  intros Hundo Hvalid Hw Hw'. exists (matrix_applied g st indices).
  pose proof (undoes_length g g' Hundo) as Hlen.
  pose proof (valid_tuple_after g g' st indices Hlen Hvalid) as Hmid.
  unfold buffer_after.
  rewrite (applyKernel_matrix_form g st indices w Hvalid Hw).
  rewrite (applyKernel_matrix_form g' _ indices w' Hmid) by congruence.
  split; [done|]. f_equal. by apply undoes_matrix_applied.
Qed.

Lemma rotation_then_inverse_witness :
  ∃ mid, buffer_after (mkGeneralRotationGate PI (PI / 2) (PI / 4)) [0; 2]
           [1; 0; 0]%C [0; 0]%C = Some mid ∧
         buffer_after (mkGeneralRotationGate (- (PI / 4)) (- (PI / 2)) (- PI)) [0; 2]
           mid [0; 0]%C = Some [1; 0; 0]%C.
Proof.
  apply (rotation_then_inverse _ _ [1; 0; 0]%C [0; 2] [0; 0]%C [0; 0]%C
           (undoes_Rot PI (PI / 2) (PI / 4))); [tuple_by_hand|reflexivity|reflexivity].
Defined.

Lemma composes_matrix_applied g1 g2 g12 st indices :
  composes g1 g2 g12 → valid_tuple g1 st indices →
  matrix_applied g2 (matrix_applied g1 st indices) indices
  = matrix_applied g12 st indices.
Proof.
  intros Hcomp [[Hlen Hin] Hnd]. cbv [length_] in Hlen.
  destruct Hcomp; compare_applications Hlen indices st.
Qed.

Lemma composes_length g1 g2 g12 :
  composes g1 g2 g12 → length_ g2 = length_ g1 ∧ length_ g12 = length_ g1.
Proof. by destruct 1. Qed.

(** X6.  In exact complex arithmetic (cosine, sine and the complex
    exponential exact; the doubles of the code follow it up to round-off
    only), rotations of one class add their angles: for RX, RY, RZ,
    PhaseShift, CRX, CRY and CRZ, on a valid index tuple, the kernel of the
    gate built on the angle [alpha] followed by the kernel of the gate
    built on [beta] leaves the buffer that the kernel of the gate built on
    [alpha + beta] leaves; all three runs complete.  The half angles of the
    constructors are consistent with the kernels. *)
Theorem rotations_add_their_angles g1 g2 g12 st indices w1 w2 w12 :
  composes g1 g2 g12 → valid_tuple g1 st indices →
  length w1 = length_ g1 → length w2 = length_ g1 → length w12 = length_ g1 →
  ∃ mid final, buffer_after g1 indices st w1 = Some mid ∧
               buffer_after g2 indices mid w2 = Some final ∧
               buffer_after g12 indices st w12 = Some final.
Proof.
  intros Hcomp Hvalid Hw1 Hw2 Hw12.
  exists (matrix_applied g1 st indices), (matrix_applied g12 st indices).
  destruct (composes_length g1 g2 g12 Hcomp) as [Hlen2 Hlen12].
  pose proof (valid_tuple_after g1 g2 st indices Hlen2 Hvalid) as Hmid.
  assert (Hboth : valid_tuple g12 st indices).
  { destruct Hvalid as [[? ?] ?]. repeat split; [congruence|done|done]. }
  unfold buffer_after.
  rewrite (applyKernel_matrix_form g1 st indices w1 Hvalid Hw1).
  rewrite (applyKernel_matrix_form g2 _ indices w2 Hmid) by congruence.
  rewrite (applyKernel_matrix_form g12 st indices w12 Hboth) by congruence.
  repeat split. f_equal. by apply composes_matrix_applied.
Qed.

Lemma rotations_add_their_angles_witness :
  ∃ mid final,
    buffer_after (mkCRotationXGate (PI / 2)) [0; 1; 2; 3] [0; 0; 1; 0]%C [0; 0; 0; 0]%C
    = Some mid ∧
    buffer_after (mkCRotationXGate PI) [0; 1; 2; 3] mid [0; 0; 0; 0]%C = Some final ∧
    buffer_after (mkCRotationXGate (PI / 2 + PI)) [0; 1; 2; 3] [0; 0; 1; 0]%C
      [0; 0; 0; 0]%C = Some final.
Proof.
  apply (rotations_add_their_angles _ _ _ [0; 0; 1; 0]%C [0; 1; 2; 3]
           [0; 0; 0; 0]%C [0; 0; 0; 0]%C [0; 0; 0; 0]%C (composes_CRX (PI / 2) PI));
    [tuple_by_hand|reflexivity|reflexivity|reflexivity].
Defined.

Lemma decomposes_matrix_applied g g1 g2 g3 st indices :
  decomposes g [g1; g2; g3] → valid_tuple g st indices →
  matrix_applied g3 (matrix_applied g2 (matrix_applied g1 st indices) indices) indices
  = matrix_applied g st indices.
Proof.
  intros Hdec [[Hlen Hin] Hnd]. cbv [length_] in Hlen.
  inversion Hdec; subst; compare_applications Hlen indices st.
Qed.

(** X7.  In exact complex arithmetic (cosine, sine and the complex
    exponential exact; the doubles of the code follow it up to round-off
    only), the general rotation is a Z rotation, a Y rotation and a Z
    rotation: on a valid index tuple, the kernels of [RZ(phi)], [RY(theta)]
    and [RZ(omega)] called in this order leave the buffer that the kernel
    of [Rot(phi, theta, omega)] leaves, and the kernels of [CRZ(phi)],
    [CRY(theta)] and [CRZ(omega)] the buffer that the kernel of
    [CRot(phi, theta, omega)] leaves; all runs complete. *)
Theorem general_rotation_is_three_rotations g gates st indices scratch :
  decomposes g gates → valid_tuple g st indices → length scratch = length_ g →
  ∃ final, state_after (applyKernels gates indices (Mem st scratch)) = Some final ∧
           buffer_after g indices st scratch = Some final.
Proof.
  intros Hdec Hvalid Hs. exists (matrix_applied g st indices).
  split; [|by apply applyKernel_matrix_form].
  assert (∃ g1 g2 g3, gates = [g1; g2; g3] ∧ length_ g1 = length_ g ∧
                      length_ g2 = length_ g ∧ length_ g3 = length_ g)
    as (g1 & g2 & g3 & -> & H1 & H2 & H3).
  { destruct Hdec; by eexists _, _, _. }
  assert (Hv1 : valid_tuple g1 st indices).
  { destruct Hvalid as [[? ?] ?]. repeat split; [congruence|done|done]. }
  pose proof (valid_tuple_after g1 g2 st indices ltac:(congruence) Hv1) as Hv2.
  pose proof (valid_tuple_after g2 g3 _ indices ltac:(congruence) Hv2) as Hv3.
  cbn [applyKernels].
  destruct (applyKernel_run g1 indices st scratch Hv1 ltac:(congruence))
    as (w1 & Hr1 & Hw1).
  destruct (applyKernel_run g2 indices _ w1 Hv2 ltac:(congruence))
    as (w2 & Hr2 & Hw2).
  destruct (applyKernel_run g3 indices _ w2 Hv3 ltac:(congruence))
    as (w3 & Hr3 & Hw3).
  rewrite run_bind, Hr1, run_bind, Hr2, run_bind, Hr3. simpl.
  f_equal. by apply decomposes_matrix_applied.
Qed.

Lemma general_rotation_is_three_rotations_witness :
  ∃ final,
    state_after (applyKernels [mkRotationZGate PI; mkRotationYGate (PI / 2);
                               mkRotationZGate (PI / 4)]
                   [1; 0] (Mem [1; 0]%C [0; 0]%C)) = Some final ∧
    buffer_after (mkGeneralRotationGate PI (PI / 2) (PI / 4)) [1; 0] [1; 0]%C [0; 0]%C
    = Some final.
Proof.
  apply (general_rotation_is_three_rotations _ _ [1; 0]%C [1; 0] [0; 0]%C
           (decomposes_Rot PI (PI / 2) (PI / 4))); [tuple_by_hand|reflexivity].
Defined.

(** ** The phase gates *)

Lemma expi_add a b : (Cplx.expi a * Cplx.expi b)%C = Cplx.expi (a + b).
Proof.
  unfold Cplx.expi, Cplx.mul; simpl. rewrite cos_plus, sin_plus. f_equal; ring.
Qed.

Lemma TGate_shift_sq : (TGate_shift * TGate_shift)%C = IMAG.
Proof.
  unfold TGate_shift, M_PI. rewrite expi_add.
  replace (PI / 4 + PI / 4)%R with (PI / 2)%R by lra.
  unfold Cplx.expi, IMAG, Cplx.mk. by rewrite cos_PI2, sin_PI2.
Qed.

Lemma expi_PI : Cplx.expi M_PI = (- (1))%C.
Proof.
  unfold Cplx.expi, M_PI, Cplx.opp, Cplx.one. rewrite cos_PI, sin_PI.
  simpl. f_equal; lra.
Qed.

Lemma expi_PI2 : Cplx.expi (M_PI / 2) = IMAG.
Proof. unfold Cplx.expi, M_PI, IMAG, Cplx.mk. by rewrite cos_PI2, sin_PI2. Qed.

Ltac phase_closer := ring [IMAG_sq TGate_shift_sq].

(** X8.  In exact complex arithmetic (with [TGate::shift] the exact
    [exp(i pi/4)]; the doubles of the code follow it up to round-off only),
    the kernel of S called twice is the kernel of Z, and the kernel of T
    called twice is the kernel of S: on every buffer, every tuple of two
    positions of the buffer (distinct or not) and every scratch vector, the
    runs complete and leave the same buffer. *)
Theorem phase_kernels_compose st indices scratch :
  length indices = 2 → Forall (λ i, i < length st) indices →
  state_after (applyKernels [SGate; SGate] indices (Mem st scratch))
    = state_after (applyKernel ZGate indices (Mem st scratch)) ∧
  state_after (applyKernels [TGate; TGate] indices (Mem st scratch))
    = state_after (applyKernel SGate indices (Mem st scratch)) ∧
  state_after (applyKernel ZGate indices (Mem st scratch)) ≠ None ∧
  state_after (applyKernel SGate indices (Mem st scratch)) ≠ None.
Proof.
  intros Hlen Hin. explode_tuple indices. name_amplitudes st.
  cbn [applyKernels]. unfold_kernels. run. simpl.
  repeat split; try done; f_equal; compare_buffers ltac:(phase_closer).
Qed.

Lemma phase_kernels_compose_witness :
  state_after (applyKernels [SGate; SGate] [0; 1] (Mem [1; 1]%C []))
    = state_after (applyKernel ZGate [0; 1] (Mem [1; 1]%C [])) ∧
  state_after (applyKernels [TGate; TGate] [0; 1] (Mem [1; 1]%C []))
    = state_after (applyKernel SGate [0; 1] (Mem [1; 1]%C [])) ∧
  state_after (applyKernel ZGate [0; 1] (Mem [1; 1]%C [])) ≠ None ∧
  state_after (applyKernel SGate [0; 1] (Mem [1; 1]%C [])) ≠ None.
Proof.
  apply (phase_kernels_compose [1; 1]%C [0; 1] []);
    [reflexivity|repeat constructor; simpl; lia].
Defined.

(** X9.  In exact complex arithmetic (with [TGate::shift] the exact
    [exp(i pi/4)]; the doubles of the code follow it up to round-off only),
    the kernel of S has order four and the kernel of T order eight: on
    every buffer, every tuple of two positions of the buffer and every
    scratch vector, four calls of the kernel of S, and eight calls of the
    kernel of T, complete and leave the buffer as it was. *)
Theorem phase_kernels_have_finite_order st indices scratch :
  length indices = 2 → Forall (λ i, i < length st) indices →
  state_after (applyKernels (replicate 4 SGate) indices (Mem st scratch)) = Some st ∧
  state_after (applyKernels (replicate 8 TGate) indices (Mem st scratch)) = Some st.
Proof.
  intros Hlen Hin. explode_tuple indices. name_amplitudes st.
  cbn [applyKernels replicate]. unfold_kernels. run. simpl.
  split; f_equal; compare_buffers ltac:(phase_closer).
Qed.

Lemma phase_kernels_have_finite_order_witness :
  state_after (applyKernels (replicate 4 SGate) [0; 1] (Mem [1; 1]%C []))
    = Some [1; 1]%C ∧
  state_after (applyKernels (replicate 8 TGate) [0; 1] (Mem [1; 1]%C []))
    = Some [1; 1]%C.
Proof.
  apply (phase_kernels_have_finite_order [1; 1]%C [0; 1] []);
    [reflexivity|repeat constructor; simpl; lia].
Defined.

(** X10.  In exact arithmetic, with [M_PI] the real number pi and the
    complex exponential exact (in the doubles of the code [M_PI] is only
    near pi, and the shifts of the instances below are only near -1 and
    i): Z, S and T are the phase shifts by pi, pi/2 and pi/4, that is, each
    of them has the kernel and the matrix of the instance that the
    constructor of PhaseShift builds on that angle. *)
Theorem fixed_phase_gates_are_phase_shifts :
  (applyKernel ZGate = applyKernel (mkPhaseShiftGate M_PI) ∧
   asMatrix ZGate = asMatrix (mkPhaseShiftGate M_PI)) ∧
  (applyKernel SGate = applyKernel (mkPhaseShiftGate (M_PI / 2)) ∧
   asMatrix SGate = asMatrix (mkPhaseShiftGate (M_PI / 2))) ∧
  (applyKernel TGate = applyKernel (mkPhaseShiftGate (M_PI / 4)) ∧
   asMatrix TGate = asMatrix (mkPhaseShiftGate (M_PI / 4))).
Proof.
  unfold mkPhaseShiftGate. rewrite expi_PI, expi_PI2. by repeat split.
Qed.

(** ** Hadamard *)

Ltac hadamard_closer := split_amplitudes; real_parts; name_inv_sqrt2; f_equal; nsatz.

(** X11.  In exact complex arithmetic (with [SQRT2INV] the exact 1/√2;
    the doubles of the code follow it up to round-off only), Hadamard
    exchanges X and Z: on a valid index tuple and a scratch vector of
    length two, the kernels of Hadamard, X and Hadamard called in this
    order leave the buffer that the kernel of Z leaves, and the kernels of
    Hadamard, Z and Hadamard the buffer that the kernel of X leaves; all
    runs complete. *)
Theorem hadamard_exchanges_X_and_Z st indices scratch :
  valid_tuple HadamardGate st indices → length scratch = 2 →
  state_after (applyKernels [HadamardGate; XGate; HadamardGate] indices (Mem st scratch))
    = state_after (applyKernel ZGate indices (Mem st scratch)) ∧
  state_after (applyKernels [HadamardGate; ZGate; HadamardGate] indices (Mem st scratch))
    = state_after (applyKernel XGate indices (Mem st scratch)) ∧
  state_after (applyKernel ZGate indices (Mem st scratch)) ≠ None ∧
  state_after (applyKernel XGate indices (Mem st scratch)) ≠ None.
Proof.
  intros [[Hlen Hin] Hnd] Hs. cbv [length_ numQubits] in Hlen; simpl in Hlen.
  explode_tuple indices. name_amplitudes st. distinct_positions.
  cbn [applyKernels]. unfold_kernels. run. simpl.
  repeat split; try done; f_equal; compare_buffers ltac:(hadamard_closer).
Qed.

Lemma hadamard_exchanges_X_and_Z_witness :
  state_after (applyKernels [HadamardGate; XGate; HadamardGate] [1; 0]
                 (Mem [1; 0]%C [0; 0]%C))
    = state_after (applyKernel ZGate [1; 0] (Mem [1; 0]%C [0; 0]%C)) ∧
  state_after (applyKernels [HadamardGate; ZGate; HadamardGate] [1; 0]
                 (Mem [1; 0]%C [0; 0]%C))
    = state_after (applyKernel XGate [1; 0] (Mem [1; 0]%C [0; 0]%C)) ∧
  state_after (applyKernel ZGate [1; 0] (Mem [1; 0]%C [0; 0]%C)) ≠ None ∧
  state_after (applyKernel XGate [1; 0] (Mem [1; 0]%C [0; 0]%C)) ≠ None.
Proof.
  apply (hadamard_exchanges_X_and_Z [1; 0]%C [1; 0] [0; 0]%C);
    [tuple_by_hand|reflexivity].
Defined.

(** ** Controlled gates *)

(** X12.  A controlled gate acts as its target on the last slots of its
    tuple: for CNOT, CZ, CRX, CRY, CRZ and CRot (target X, Z, RX, RY, RZ,
    Rot, after two slots) and for Toffoli and CSWAP (target CNOT and SWAP,
    after four slots), on a valid index tuple, the tuple without its
    leading slots is a valid tuple for the target, and the kernel of the
    controlled gate on the whole tuple leaves the buffer that the kernel of
    the target leaves on the shortened tuple; both runs complete. *)
Theorem controlled_kernel_is_target_kernel g target skipped st indices w w' :
  controlled_target g = Some (target, skipped) →
  valid_tuple g st indices →
  length w = length_ g → length w' = length_ target →
  valid_tuple target st (drop skipped indices) ∧
  ∃ final, buffer_after g indices st w = Some final ∧
           buffer_after target (drop skipped indices) st w' = Some final.
Proof.
  intros Htarget Hvalid Hw Hw'.
  assert (Hdrop : valid_tuple target st (drop skipped indices)).
  { destruct Hvalid as [[Hlen Hin] Hnd].
    destruct g; simplify_eq/=; cbv [length_] in Hlen; simpl in Hlen;
      explode_tuple indices; simpl; repeat split; try done;
      repeat match goal with
      | H : Forall _ (_ :: _) |- _ => apply Forall_cons in H as [? H]
      | H : NoDup (_ :: _) |- _ => apply NoDup_cons in H as [? H]
      end; repeat constructor; try done; set_solver. }
  split; [done|]. exists (matrix_applied g st indices).
  unfold buffer_after. rewrite !applyKernel_matrix_form by done.
  split; [done|]. f_equal.
  destruct Hvalid as [[Hlen Hin] Hnd].
  destruct g; simplify_eq/=; cbv [length_] in Hlen; simpl in Hlen;
    explode_tuple indices;
    unfold matrix_applied, scatter, scatter_write, row_product, amplitudes; simpl;
    name_amplitudes st; distinct_positions; symmetry;
    compare_buffers ltac:(ring).
Qed.

Lemma controlled_kernel_is_target_kernel_witness :
  valid_tuple XGate [0; 0; 1; 0]%C (drop 2 [0; 1; 2; 3]) ∧
  ∃ final,
    buffer_after CNOTGate [0; 1; 2; 3] [0; 0; 1; 0]%C [0; 0; 0; 0]%C = Some final ∧
    buffer_after XGate (drop 2 [0; 1; 2; 3]) [0; 0; 1; 0]%C [0; 0]%C = Some final.
Proof.
  apply (controlled_kernel_is_target_kernel CNOTGate XGate 2 [0; 0; 1; 0]%C
           [0; 1; 2; 3] [0; 0; 0; 0]%C [0; 0]%C);
    [reflexivity|tuple_by_hand|reflexivity|reflexivity].
Defined.

(** X13.  The matrix of a controlled gate is the identity on the leading
    rows and columns and the matrix of its target on the others: entry
    [(i, j)] of the matrix of CNOT, CZ, CRX, CRY, CRZ, CRot (two leading
    rows) or of Toffoli, CSWAP (four) is 1 on the diagonal and 0 off it
    when [i] or [j] is a leading index, and otherwise the entry of the
    target's matrix at the two indices lowered by the number of leading
    rows. *)
Theorem controlled_matrix_is_block_diagonal g target skipped i j :
  controlled_target g = Some (target, skipped) →
  i < length_ g → j < length_ g →
  asMatrix g !!! (i * length_ g + j)
  = if decide (i < skipped ∨ j < skipped)
    then if decide (i = j) then 1%C else 0%C
    else asMatrix target !!! ((i - skipped) * length_ target + (j - skipped)).
Proof.
  intros Htarget Hi Hj. cbv [length_] in Hi, Hj.
  destruct g; simplify_eq/=; each_below i; each_below j;
    repeat case_decide; try lia; reflexivity.
Qed.

Lemma controlled_matrix_is_block_diagonal_witness :
  asMatrix ToffoliGate !!! (6 * length_ ToffoliGate + 7)
  = if decide (6 < 4 ∨ 7 < 4)
    then if decide (6 = 7) then 1%C else 0%C
    else asMatrix CNOTGate !!! ((6 - 4) * length_ CNOTGate + (7 - 4)).
Proof.
  apply (controlled_matrix_is_block_diagonal ToffoliGate CNOTGate 4 6 7);
    [reflexivity|unfold length_; simpl; lia|unfold length_; simpl; lia].
Defined.

(** X18.  SWAP and CZ do not depend on the order of their two qubits,
    Toffoli not on the order of its two controls, CSWAP not on the order of
    its two targets: on a valid index tuple, the kernel leaves the same
    buffer on the tuple and on the tuple with the slots of the two qubits
    exchanged; both runs complete, whatever the scratch vectors. *)
Theorem symmetric_kernels_ignore_the_order g st indices indices' w w' :
  exchanged g indices = Some indices' → valid_tuple g st indices →
  ∃ final, buffer_after g indices st w = Some final ∧
           buffer_after g indices' st w' = Some final.
Proof.
  intros Hex [[Hlen Hin] Hnd]. cbv [length_] in Hlen.
  destruct g; try discriminate Hex; simpl in Hlen; explode_tuple indices;
    simpl in Hex; simplify_eq;
    name_amplitudes st; distinct_positions;
    unfold buffer_after; unfold_kernels; run; simpl;
    eexists; (split; [reflexivity|]); f_equal; compare_buffers ltac:(ring).
Qed.

Lemma symmetric_kernels_ignore_the_order_witness :
  ∃ final,
    buffer_after CZGate [0; 1; 2; 3] [0; 0; 0; 1]%C [] = Some final ∧
    buffer_after CZGate [0; 2; 1; 3] [0; 0; 0; 1]%C [] = Some final.
Proof.
  apply (symmetric_kernels_ignore_the_order CZGate [0; 0; 0; 1]%C
           [0; 1; 2; 3] [0; 2; 1; 3] [] []); [reflexivity|tuple_by_hand].
Defined.

(** ** Linearity *)

Lemma superpose_length a b st st' :
  length st' = length st → length (superpose a b st st') = length st.
Proof. intros Hlen. unfold superpose. rewrite length_zip_with. lia. Qed.

Lemma superpose_lookup a b st st' p :
  superpose a b st st' !! p
  = x ← st !! p; y ← st' !! p; Some (a * x + b * y)%C.
Proof. unfold superpose. by rewrite lookup_zip_with. Qed.

Lemma superpose_lookup_total a b st st' i :
  length st' = length st → i < length st →
  superpose a b st st' !!! i = (a * st !!! i + b * st' !!! i)%C.
Proof.
  intros Hlen Hi. apply list_lookup_total_correct.
  rewrite superpose_lookup.
  rewrite (lookup_amplitude st i Hi), (lookup_amplitude st' i) by lia. done.
Qed.

Lemma row_product_superpose matrix a b st st' indices i :
  length st' = length st → Forall (λ i, i < length st) indices →
  row_product matrix (amplitudes (superpose a b st st') indices) i
  = (a * row_product matrix (amplitudes st indices) i
     + b * row_product matrix (amplitudes st' indices) i)%C.
Proof.
  intros Hlen Hin. unfold row_product. rewrite !amplitudes_length.
  assert (Hgen : ∀ count j acc acc',
    j + count ≤ length indices →
    foldl (λ acc j, acc + matrix !!! (i * length indices + j)%nat
                          * amplitudes (superpose a b st st') indices !!! j)%C
          (a * acc + b * acc')%C (seq j count)
    = (a * foldl (λ acc j, acc + matrix !!! (i * length indices + j)%nat
                                 * amplitudes st indices !!! j)%C acc (seq j count)
       + b * foldl (λ acc j, acc + matrix !!! (i * length indices + j)%nat
                                   * amplitudes st' indices !!! j)%C acc' (seq j count))%C).
  { induction count as [|count IH]; intros j acc acc' Hj; simpl; [done|].
    rewrite <- IH by lia. f_equal.
    rewrite !amplitudes_lookup_total by lia.
    rewrite superpose_lookup_total; [ring|done|].
    apply (Forall_lookup_1 (λ i, i < length st) indices j); [done|].
    apply list_lookup_lookup_total_lt; lia. }
  rewrite <- Hgen by lia. f_equal. ring.
Qed.

Lemma matrix_applied_superpose g a b st st' indices :
  length st' = length st → NoDup indices → Forall (λ i, i < length st) indices →
  matrix_applied g (superpose a b st st') indices
  = superpose a b (matrix_applied g st indices) (matrix_applied g st' indices).
Proof.
  intros Hlen Hnd Hin. apply list_eq. intros p. unfold matrix_applied.
  assert (Hin' : Forall (λ i, i < length st') indices) by by rewrite Hlen.
  assert (Hin'' : Forall (λ i, i < length (superpose a b st st')) indices)
    by by rewrite superpose_length.
  rewrite (superpose_lookup a b (scatter _ _ _)).
  destruct (decide (p ∈ indices)) as [Hp|Hp].
  - apply list_elem_of_lookup in Hp as [i Hi].
    rewrite !(scatter_lookup_at _ indices _ i p) by done. simpl.
    f_equal. by apply row_product_superpose.
  - rewrite !scatter_lookup_outside by done. apply superpose_lookup.
Qed.

(** X14.  In exact complex arithmetic (sums and products of amplitudes
    exact; the doubles of the code follow it up to round-off only), every
    kernel is linear in the buffer: for every gate, two buffers of one
    length, a valid index tuple and two complex numbers [a] and [b], the
    kernel on the buffer [a * st + b * st'] (slot by slot) leaves [a] times
    what it leaves on [st] plus [b] times what it leaves on [st']; the
    three runs complete. *)
Theorem kernel_is_linear g a b st st' indices w w' w'' :
  valid_tuple g st indices → length st' = length st →
  length w = length_ g → length w' = length_ g → length w'' = length_ g →
  ∃ out out', buffer_after g indices st w = Some out ∧
              buffer_after g indices st' w' = Some out' ∧
              buffer_after g indices (superpose a b st st') w''
              = Some (superpose a b out out').
Proof.
  intros Hvalid Hlen Hw Hw' Hw''.
  exists (matrix_applied g st indices), (matrix_applied g st' indices).
  destruct Hvalid as [[Hk Hin] Hnd].
  unfold buffer_after. rewrite !applyKernel_matrix_form; try done.
  - repeat split. f_equal. by apply matrix_applied_superpose.
  - repeat split; [done| |done]. by rewrite superpose_length.
  - repeat split; [done| |done]. by rewrite Hlen.
Qed.

Lemma kernel_is_linear_witness :
  ∃ out out',
    buffer_after HadamardGate [0; 1] [1; 0]%C [0; 0]%C = Some out ∧
    buffer_after HadamardGate [0; 1] [0; 1]%C [0; 0]%C = Some out' ∧
    buffer_after HadamardGate [0; 1] (superpose IMAG SQRT2INV [1; 0]%C [0; 1]%C)
      [0; 0]%C = Some (superpose IMAG SQRT2INV out out').
Proof.
  apply (kernel_is_linear HadamardGate IMAG SQRT2INV [1; 0]%C [0; 1]%C [0; 1]
           [0; 0]%C [0; 0]%C [0; 0]%C);
    [tuple_by_hand|reflexivity|reflexivity|reflexivity|reflexivity].
Defined.

(** ** How the kernels fail *)

Lemma gather_fault indices : ∀ pos st scratch,
  ¬ Forall (λ i, i < length st) indices →
  pos + length indices ≤ length scratch →
  gather indices pos (Mem st scratch) = Fault OutOfBounds.
Proof.
  induction indices as [|index rest IH]; intros pos st scratch Hout Hlen; simpl.
  - destruct Hout. constructor.
  - simpl in Hlen. rewrite run_bind. unfold load_state at 1; simpl.
    destruct (st !! index) as [x|] eqn:Hx; [|done].
    rewrite run_bind, run_store_v by lia.
    apply IH; [|rewrite length_insert; lia].
    intros Hrest. apply Hout. constructor; [|done].
    by apply lookup_lt_Some in Hx.
Qed.

(** X15.  The outcome of the generic kernel on any input: when the index
    tuple or the scratch vector has not the gate's length the assertion
    fails, before anything is read or written; with both lengths right it
    accesses the buffer out of bounds when some position of the tuple is
    outside the buffer; and otherwise it completes, leaving the scattered
    row products in the buffer and the pre-call amplitudes in the scratch
    vector.  Repeated positions do not make it fail. *)
Theorem generic_applyKernel_outcome g indices st scratch :
  generic_applyKernel g indices (Mem st scratch) =
  if bool_decide (length indices = length_ g ∧ length scratch = length_ g)
  then if bool_decide (Forall (λ i, i < length st) indices)
       then Done () (Mem (matrix_applied g st indices) (amplitudes st indices))
       else Fault OutOfBounds
  else Fault AssertionFailed.
Proof.
  case_bool_decide as Hsizes.
  - destruct Hsizes as [Hi Hs]. case_bool_decide as Hin.
    + by apply generic_applyKernel_run.
    + unfold generic_applyKernel, AbstractGate_applyKernel.
      rewrite run_bind; simpl. rewrite run_bind.
      unfold assert. rewrite bool_decide_eq_true_2 by done.
      rewrite run_bind, gather_fault; [done|done|lia].
  - unfold generic_applyKernel, AbstractGate_applyKernel.
    rewrite run_bind; simpl. rewrite run_bind.
    unfold assert. by rewrite bool_decide_eq_false_2.
Qed.

(** Run a kernel by cases on every access. *)
Ltac split_run :=
  repeat first
    [ rewrite run_bind
    | progress cbn [state v]
    | match goal with
      | |- context [match ?l !! ?i with _ => _ end] => destruct (l !! i) eqn:?
      | |- context [decide (?i < ?n)] => destruct (decide (i < n))
      end
    | progress unfold at_ | progress unfold load_state | progress unfold load_v
    | progress unfold store_state | progress unfold store_v ].

Ltac lengths :=
  repeat match goal with
  | H : _ !! _ = Some _ |- _ => apply lookup_lt_Some in H
  | H : _ !! _ = None |- _ => apply lookup_ge_None in H
  | H : context [length (<[_:=_]> _)] |- _ => rewrite length_insert in H
  end.

Ltac completes_closer :=
  split;
  [ intros Hdone; try (by destruct Hdone);
    lengths; repeat first [split | eexists]; first [reflexivity | lia]
  | intros [Hslots Hscratch];
    repeat match goal with
    | H : _ ∧ _ |- _ => destruct H
    | H : ∃ _, _ |- _ => destruct H
    | H : True |- _ => clear H
    end; simplify_eq; try done; lengths; lia ].

(** X16.  When the kernel of a class that overrides [applyKernel]
    completes: exactly when the slots of the index tuple that the kernel
    touches exist and hold positions of the buffer, and the scratch vector
    has the one or two leading slots that the kernel uses (one for PauliY,
    two for Hadamard, CRX, CRY and CRot, none for the others).  Unlike the
    generic kernel, these kernels check neither the length of the tuple nor
    that of the scratch vector. *)
Theorem specialized_kernel_completes_iff g indices st scratch :
  overrides_applyKernel g = true →
  state_after (applyKernel g indices (Mem st scratch)) ≠ None ↔
  slots_in_range g st indices ∧ scratch_slots g ≤ length scratch.
Proof.
  intros Hg. unfold slots_in_range.
  destruct g; try discriminate Hg; clear Hg; cbn [written_slots scratch_slots];
    rewrite ?Forall_cons, Forall_nil; unfold_kernels;
    unfold swap_state, scale_state; split_run; cbn [state_after];
    completes_closer.
Qed.

Lemma specialized_kernel_completes_iff_witness :
  state_after (applyKernel CZGate [0; 0; 0; 1] (Mem [1; 1]%C [])) ≠ None ↔
  slots_in_range CZGate [1; 1]%C [0; 0; 0; 1] ∧ scratch_slots CZGate ≤ length ([] : list CplxType).
Proof.
  apply (specialized_kernel_completes_iff CZGate [0; 0; 0; 1] [1; 1]%C []).
  reflexivity.
Defined.

(** X17.  The kernels that work in place never touch the scratch vector:
    for PauliX, PauliZ, S, T, RZ, PhaseShift, CNOT, SWAP, CZ, CRZ, Toffoli
    and CSWAP, on any buffer and any index tuple, whether the kernel
    completes and the buffer it leaves do not depend on the scratch vector,
    and a run that completes returns the scratch vector as it was. *)
Theorem in_place_kernels_ignore_scratch g indices st scratch scratch' :
  scratch_slots g = 0 →
  state_after (applyKernel g indices (Mem st scratch)) =
    state_after (applyKernel g indices (Mem st scratch')) ∧
  ∀ m, applyKernel g indices (Mem st scratch) = Done () m → v m = scratch.
Proof.
  intros Hg.
  destruct g; try discriminate Hg; clear Hg; unfold_kernels;
    unfold swap_state, scale_state; split_run; cbn [state_after];
    (split; [reflexivity | intros m Hm; by simplify_eq]).
Qed.

Lemma in_place_kernels_ignore_scratch_witness :
  state_after (applyKernel SWAPGate [0; 1; 2; 3] (Mem [0; 1; 0; 0]%C [])) =
    state_after (applyKernel SWAPGate [0; 1; 2; 3] (Mem [0; 1; 0; 0]%C [1; 1]%C)) ∧
  ∀ m, applyKernel SWAPGate [0; 1; 2; 3] (Mem [0; 1; 0; 0]%C []) = Done () m →
       v m = [].
Proof.
  apply (in_place_kernels_ignore_scratch SWAPGate [0; 1; 2; 3] [0; 1; 0; 0]%C
           [] [1; 1]%C).
  reflexivity.
Defined.
